(** * AR Colorize: the per-frame pipeline of [ar_colorize.py]

    A shallow embedding of the class [ARColorize] (colour parsing, wall
    segmentation, colour compositing and the per-frame driver) together with
    the properties its specification states about it.

    Conventions.
    - A Python [str] is a [string] (code points below 256).
    - A [uint8] array element is a [Z]; wrap-around and saturation are
      written out where numpy or OpenCV perform them.
    - A [float] is an exact rational [Q]: the blend weights are not rounded
      to binary floating point.
    - Python exceptions are the constructors of [exn]; a computation that may
      raise returns a [result].
    - numpy arrays that the code mutates or copies live in a [heap] indexed by
      locations, so that aliasing between the input frame and the returned
      frame is visible. *)

From Stdlib Require Import ZArith QArith Qround Qabs Lqa String Ascii List Bool Lia.
From stdpp Require Import base option list gmap.

Local Open Scope Z_scope.

(** ** Exceptions and the state-and-exception monad *)

Inductive exn : Type :=
| ValueError   (* int() on a malformed literal *)
| IndexError   (* boolean index of the wrong shape *)
| TypeError.   (* assigning None into a uint8 array *)

Inductive result (A : Type) : Type :=
| Ok (a : A)
| Raise (e : exn).
Arguments Ok {A} a.
Arguments Raise {A} e.

(** A computation over a mutable state [S]: the state reached when an
    exception is raised is kept, as in Python. *)
Definition M (S A : Type) : Type := S -> result A * S.

Definition ret {S A} (a : A) : M S A := fun s => (Ok a, s).
Definition raise {S A} (e : exn) : M S A := fun s => (Raise e, s).
Definition bind {S A B} (m : M S A) (k : A -> M S B) : M S B :=
  fun s => match m s with
           | (Ok a, s') => k a s'
           | (Raise e, s') => (Raise e, s')
           end.
Definition lift {S A} (r : result A) : M S A := fun s => (r, s).
Definition get {S} : M S S := fun s => (Ok s, s).
Definition modify {S} (f : S -> S) : M S unit := fun s => (Ok tt, f s).

Notation "x <- m ;; k" := (bind m (fun x => k))
  (at level 200, m at level 99, k at level 200, only parsing).
Notation "m ;;; k" := (bind m (fun _ => k))
  (at level 200, k at level 200, only parsing).

Definition rbind {A B} (r : result A) (k : A -> result B) : result B :=
  match r with
  | Ok a => k a
  | Raise e => Raise e
  end.
Notation "x <~ r ;; k" := (rbind r (fun x => k))
  (at level 200, r at level 99, k at level 200, only parsing).

(** ** Python strings: [str.lstrip], slicing and [int(s, base)] *)

Definition code (c : ascii) : Z := Z.of_N (N_of_ascii c).

(** [s.lstrip(c)] for a one-character set [c]. *)
Fixpoint lstrip (c : ascii) (s : string) : string :=
  match s with
  | EmptyString => EmptyString
  | String a s' => if Ascii.eqb a c then lstrip c s' else s
  end.

(** [s[i:j]] for [0 <= i <= j]: slicing clamps at the end of the string. *)
Definition slice (s : string) (i j : nat) : string := substring i (j - i) s.

(** [str.isspace] on code points below 256. *)
Definition isspace (c : ascii) : bool :=
  let n := code c in
  ((9 <=? n) && (n <=? 13)) || ((28 <=? n) && (n <=? 32))
  || (n =? 133) || (n =? 160).

(** Value of a digit character in bases up to 36. *)
Definition digit_value (c : ascii) : option Z :=
  let n := code c in
  if (48 <=? n) && (n <=? 57) then Some (n - 48)
  else if (97 <=? n) && (n <=? 122) then Some (n - 87)
  else if (65 <=? n) && (n <=? 90) then Some (n - 55)
  else None.

Definition underscore : ascii := "_"%char.

(** The digits of a literal, single underscores allowed between digits. *)
Fixpoint digits (base : Z) (prev_underscore : bool) (acc : Z)
    (cs : list ascii) : option Z :=
  match cs with
  | [] => if prev_underscore then None else Some acc
  | c :: cs' =>
      if Ascii.eqb c underscore then
        if prev_underscore then None else digits base true acc cs'
      else
        match digit_value c with
        | Some d =>
            if d <? base then digits base false (base * acc + d) cs' else None
        | None => None
        end
  end.

Fixpoint dropwhile {A} (p : A -> bool) (l : list A) : list A :=
  match l with
  | [] => []
  | a :: l' => if p a then dropwhile p l' else l
  end.

(** [s.strip()] *)
Definition strip_spaces (cs : list ascii) : list ascii :=
  rev (dropwhile isspace (rev (dropwhile isspace cs))).

Definition split_sign (cs : list ascii) : Z * list ascii :=
  match cs with
  | c :: cs' =>
      if Ascii.eqb c "+"%char then (1, cs')
      else if Ascii.eqb c "-"%char then (-1, cs')
      else (1, cs)
  | [] => (1, cs)
  end.

(** The optional [0x], [0o] or [0b] prefix that matches the base, and the one
    underscore that may follow it. *)
Definition skip_prefix (base : Z) (cs : list ascii) : list ascii :=
  match cs with
  | z :: p :: cs' =>
      let l := code p in
      if Ascii.eqb z "0"%char
         && (((base =? 16) && ((l =? 120) || (l =? 88)))
             || ((base =? 8) && ((l =? 111) || (l =? 79)))
             || ((base =? 2) && ((l =? 98) || (l =? 66))))
      then match cs' with
           | u :: cs'' => if Ascii.eqb u underscore then cs'' else cs'
           | [] => cs'
           end
      else cs
  | _ => cs
  end.

(** [int(s, base)] for an explicit base between 2 and 36. *)
Definition int (s : string) (base : Z) : result Z :=
  let cs := strip_spaces (list_ascii_of_string s) in
  let '(sign, cs) := split_sign cs in
  let cs := skip_prefix base cs in
  match cs with
  | [] => Raise ValueError
  | c :: _ =>
      if Ascii.eqb c underscore then Raise ValueError
      else match digits base false 0 cs with
           | Some v => Ok (sign * v)
           | None => Raise ValueError
           end
  end.

(** ** The [ARColorize] object and its colour operations *)

(** A tuple [(B, G, R)]. *)
Definition pixel : Type := Z * Z * Z.

(** The fields of [self]; the camera handle [cap] carries no data. *)
Record ARColorize : Type := mkARColorize {
  selected_color : pixel;
  running : bool
}.

(** [ARColorize.__init__] *)
Definition init : ARColorize :=
  {| selected_color := (255, 255, 255); running := false |}.

Definition set_selected_color (c : pixel) (self : ARColorize) : ARColorize :=
  {| selected_color := c; running := running self |}.

(** [ARColorize.hex_to_bgr] *)
Definition hex_to_bgr (hex_color : string) : result pixel :=
  let hex_color := lstrip "#"%char hex_color in
  r <~ int (slice hex_color 0 2) 16 ;;
  g <~ int (slice hex_color 2 4) 16 ;;
  b <~ int (slice hex_color 4 6) 16 ;;
  Ok (b, g, r).

(** [ARColorize.set_color]; the [print] is not modelled. *)
Definition set_color (hex_color : string) : M ARColorize unit :=
  c <- lift (hex_to_bgr hex_color) ;;
  modify (set_selected_color c).

(** *** Six-hex-digit strings and the inverse conversion *)

Definition is_hex_digit (c : ascii) : bool :=
  match digit_value c with
  | Some d => d <? 16
  | None => false
  end.

(** Exactly six hexadecimal digits. *)
Definition is_hex6 (s : string) : bool :=
  (String.length s =? 6)%nat && forallb is_hex_digit (list_ascii_of_string s).

(** The upper-case hexadecimal digit of a value below 16. *)
Definition hex_char (v : Z) : ascii :=
  ascii_of_N (Z.to_N (if v <? 10 then v + 48 else v + 55)).

Definition hex2 (v : Z) : string :=
  String (hex_char (v / 16)) (String (hex_char (v mod 16)) EmptyString).

(** Modelled from the spec: the conversion from a channel triple back to a hex
    string ([toHex]), which the repository does not contain.  It writes [#]
    followed by the red, green and blue channels, two digits each. *)
Definition bgr_to_hex (c : pixel) : string :=
  let '(b, g, r) := c in
  String "#"%char (hex2 r ++ hex2 g ++ hex2 b).

Definition upper_char (c : ascii) : ascii :=
  let n := code c in
  if (97 <=? n) && (n <=? 122) then ascii_of_N (Z.to_N (n - 32)) else c.

Fixpoint upper (s : string) : string :=
  match s with
  | EmptyString => EmptyString
  | String c s' => String (upper_char c) (upper s')
  end.

(** Equality of strings up to the case of letters. *)
Definition eq_nocase (s t : string) : Prop := upper s = upper t.

Definition in_uint8 (v : Z) : Prop := 0 <= v <= 255.

Definition pixel_in_range (c : pixel) : Prop :=
  let '(b, g, r) := c in in_uint8 b /\ in_uint8 g /\ in_uint8 r.

(** ** Arrays *)

(** A single-channel [uint8] array of shape (H, W), row by row. *)
Abbreviation plane := (list (list Z)).

(** A three-channel [uint8] array of shape (H, W, 3) in BGR order. *)
Abbreviation image := (list (list pixel)).

Definition has_shape {A} (h w : nat) (a : list (list A)) : Prop :=
  length a = h /\ Forall (fun row => length row = w) a.

(** The test numpy makes before a boolean index is used:
    [mask.shape == a.shape[:2]]. *)
Fixpoint same_shape {A B} (a : list (list A)) (b : list (list B)) : bool :=
  match a, b with
  | [], [] => true
  | r :: a', s :: b' => (length r =? length s)%nat && same_shape a' b'
  | _, _ => false
  end.

(** [a[i, j]] *)
Definition at2 {A} (a : list (list A)) (i j : nat) : option A :=
  a !! i ≫= fun row => row !! j.

Definition valid_image (a : image) : Prop :=
  Forall (Forall pixel_in_range) a.

(** Every element is 0 or 255. *)
Definition binary_plane (p : plane) : Prop :=
  Forall (Forall (fun v => v = 0 \/ v = 255)) p.

(** [np.ones((h, w), np.uint8)] and [np.zeros_like(a)] *)
Definition ones (h w : nat) : plane := replicate h (replicate w 1).
Definition zeros_like (a : image) : image := map (map (fun _ => (0, 0, 0))) a.

(** Storing a Python integer into a [uint8] element wraps modulo 256 (numpy
    before 2.0; numpy 2 raises instead, and the two agree on 0..255). *)
Definition cast_uint8 (v : Z) : Z := v mod 256.
Definition cast_pixel (c : pixel) : pixel :=
  let '(b, g, r) := c in (cast_uint8 b, cast_uint8 g, cast_uint8 r).

(** *** Boolean-mask indexing: [a[mask > 0]] *)

(** Reading: the selected elements in row-major order. *)
Fixpoint select_row {A} (row : list A) (mrow : list Z) : list A :=
  match row, mrow with
  | p :: row', m :: mrow' =>
      if 0 <? m then p :: select_row row' mrow' else select_row row' mrow'
  | _, _ => []
  end.

Fixpoint select {A} (a : list (list A)) (mask : plane) : list A :=
  match a, mask with
  | row :: a', mrow :: mask' => select_row row mrow ++ select a' mask'
  | _, _ => []
  end.

(** Writing a list of values: they are consumed in row-major order. *)
Fixpoint scatter_row {A} (row : list A) (mrow : list Z) (vals : list A)
    : list A * list A :=
  match row, mrow with
  | p :: row', m :: mrow' =>
      if 0 <? m then
        match vals with
        | v :: vals' =>
            let '(r, rest) := scatter_row row' mrow' vals' in (v :: r, rest)
        | [] => (row, [])
        end
      else
        let '(r, rest) := scatter_row row' mrow' vals in (p :: r, rest)
  | _, _ => (row, vals)
  end.

Fixpoint scatter {A} (a : list (list A)) (mask : plane) (vals : list A)
    : list (list A) :=
  match a, mask with
  | row :: a', mrow :: mask' =>
      let '(r, rest) := scatter_row row mrow vals in
      r :: scatter a' mask' rest
  | _, _ => a
  end.

(** [a[mask > 0]] as an expression. *)
Definition getitem_mask (a : image) (mask : plane) : result (list pixel) :=
  if same_shape a mask then Ok (select a mask) else Raise IndexError.

(** [a[mask > 0] = color] with a tuple on the right: it is broadcast. *)
Definition setitem_mask_color (a : image) (mask : plane) (color : pixel)
    : result image :=
  if same_shape a mask then
    Ok (zip_with (zip_with (fun p m => if 0 <? m then cast_pixel color else p))
          a mask)
  else Raise IndexError.

(** [a[mask > 0] = values] with the value a call returned.  numpy first
    checks the shape of the index, then converts the value to the array's
    [uint8] type, which fails with [TypeError] for [None] (also when nothing
    is selected); an array must hold one row per selected pixel. *)
Definition setitem_mask (a : image) (mask : plane)
    (values : option (list pixel)) : result image :=
  if same_shape a mask then
    match values with
    | None => Raise TypeError
    | Some vs =>
        if (length vs =? length (select a mask))%nat
        then Ok (scatter a mask vs)
        else Raise ValueError
    end
  else Raise IndexError.

(** ** The OpenCV operations the pipeline calls *)

Inductive ThresholdTypes : Type := THRESH_BINARY | THRESH_BINARY_INV.
Inductive MorphTypes : Type := MORPH_OPEN | MORPH_CLOSE.
Inductive RetrievalModes : Type := RETR_EXTERNAL | RETR_LIST.
Inductive ContourApproximationModes : Type :=
  CHAIN_APPROX_NONE | CHAIN_APPROX_SIMPLE.

(** [cv2.threshold]: returns the threshold used and the thresholded array. *)
Definition threshold (src : plane) (thresh maxval : Z) (type : ThresholdTypes)
    : Z * plane :=
  let f v := match type with
             | THRESH_BINARY => if thresh <? v then maxval else 0
             | THRESH_BINARY_INV => if thresh <? v then 0 else maxval
             end in
  (thresh, map (map f) src).

(** Offsets, relative to the anchor at its centre, of the non-zero elements of
    a structuring element. *)
Definition kernel_offsets (kernel : plane) : list (Z * Z) :=
  let ay := Z.of_nat (length kernel) / 2 in
  concat (imap (fun a row =>
    let ax := Z.of_nat (length row) / 2 in
    omap id (imap (fun b v =>
      if v =? 0 then None else Some (Z.of_nat a - ay, Z.of_nat b - ax)) row))
    kernel).

Definition at_offset (src : plane) (i j : nat) (d : Z * Z) : option Z :=
  let y := Z.of_nat i + fst d in
  let x := Z.of_nat j + snd d in
  if (0 <=? y) && (0 <=? x) then at2 src (Z.to_nat y) (Z.to_nat x) else None.

(** The source elements under the structuring element placed at (i, j);
    positions outside the array do not take part (the default border). *)
Definition neighbourhood (src : plane) (kernel : plane) (i j : nat) : list Z :=
  omap (at_offset src i j) (kernel_offsets kernel).

Definition morph (op : Z -> Z -> Z) (unit : Z) (kernel : plane) (src : plane)
    : plane :=
  imap (fun i row =>
    imap (fun j _ => foldr op unit (neighbourhood src kernel i j)) row) src.

(** [cv2.dilate] and [cv2.erode]: maximum and minimum over the neighbourhood. *)
Definition dilate (src kernel : plane) (iterations : nat) : plane :=
  Nat.iter iterations (morph Z.max 0 kernel) src.
Definition erode (src kernel : plane) (iterations : nat) : plane :=
  Nat.iter iterations (morph Z.min 255 kernel) src.

(** [cv2.morphologyEx] *)
Definition morphologyEx (src : plane) (op : MorphTypes) (kernel : plane)
    : plane :=
  match op with
  | MORPH_OPEN => dilate (erode src kernel 1) kernel 1
  | MORPH_CLOSE => erode (dilate src kernel 1) kernel 1
  end.

(** [cv2.bitwise_not] and [cv2.bitwise_and] on [uint8] arrays. *)
Definition bitwise_not (src : plane) : plane :=
  map (map (fun v => Z.land (Z.lnot v) 255)) src.
Definition bitwise_and (src1 src2 : plane) : plane :=
  zip_with (zip_with Z.land) src1 src2.

(** [cvRound]: to the nearest integer, ties to the even one. *)
Definition cvRound (q : Q) : Z :=
  let f := Qfloor q in
  match Qcompare (q - inject_Z f) (1 # 2) with
  | Lt => f
  | Gt => f + 1
  | Eq => if Z.even f then f else f + 1
  end.

Definition saturate_cast_uchar (v : Z) : Z := Z.max 0 (Z.min 255 v).

(** One channel of [cv2.addWeighted]. *)
Definition add_weighted (a : Z) (alpha : Q) (b : Z) (beta gamma : Q) : Z :=
  saturate_cast_uchar
    (cvRound (inject_Z a * alpha + inject_Z b * beta + gamma)%Q).

Definition add_weighted_pixel (alpha beta gamma : Q) (p q : pixel) : pixel :=
  let '(pb, pg, pr) := p in
  let '(qb, qg, qr) := q in
  (add_weighted pb alpha qb beta gamma,
   add_weighted pg alpha qg beta gamma,
   add_weighted pr alpha qr beta gamma).

(** [cv2.addWeighted] on two (N, 3) arrays: element by element.  When the
    arrays are empty (N = 0) the result matrix holds no data, and the Python
    binding of OpenCV converts a matrix without data to [None], not to an
    empty array (as [cv2.findNonZero] and [cv2.HoughLines] do when they find
    nothing). *)
Definition addWeighted (src1 : list pixel) (alpha : Q) (src2 : list pixel)
    (beta gamma : Q) : option (list pixel) :=
  match zip_with (add_weighted_pixel alpha beta gamma) src1 src2 with
  | [] => None
  | dst => Some dst
  end.

(** ** The heap of frames *)

Abbreviation loc := positive.
Abbreviation heap := (gmap positive (list (list pixel))).

Definition alloc (a : image) : M heap loc :=
  fun h => let l := fresh (dom h) in (Ok l, <[l := a]> h).

(** Reading a name bound to an array.  A location that holds nothing cannot
    arise from Python code; the model gives it the empty array. *)
Definition load (l : loc) : M heap image :=
  fun h => (Ok (default [] (h !! l)), h).

(** In-place update of the array at [l] by an operation that may raise. *)
Definition update (l : loc) (f : image -> result image) : M heap unit :=
  fun h => match f (default [] (h !! l)) with
           | Ok a => (Ok tt, <[l := a]> h)
           | Raise e => (Raise e, h)
           end.

(** [ARColorize.apply_color_overlay] *)
Definition apply_color_overlay (frame : loc) (mask : plane) (color : pixel)
    (alpha : Q) : M heap loc :=
  f <- load frame ;;
  overlay <- alloc (zeros_like f) ;;
  update overlay (fun o => setitem_mask_color o mask color) ;;;
  f <- load frame ;;
  result <- alloc f ;;
  f <- load frame ;;
  src1 <- lift (getitem_mask f mask) ;;
  o <- load overlay ;;
  src2 <- lift (getitem_mask o mask) ;;
  let blended := addWeighted src1 (1 - alpha)%Q src2 alpha 0%Q in
  update result (fun r => setitem_mask r mask blended) ;;;
  ret result.

(** The default value of the parameter [alpha]. *)
Definition default_alpha : Q := 7 # 10.

(** ** Segmentation and the per-frame driver

    [cv2.cvtColor], [cv2.Canny], [cv2.findContours] and [cv2.drawContours]
    are taken as parameters: the pipeline is written against them, and the
    properties below name the part of their documented behaviour they use. *)

(** A contour is a list of points (x, y). *)
Abbreviation contour := (list (Z * Z)).
Abbreviation hierarchy := (list (Z * Z * Z * Z)).

Section Pipeline.

(** [cv2.cvtColor(_, cv2.COLOR_BGR2GRAY)] on one pixel. *)
Variable gray_of : pixel -> Z.
Variable Canny : plane -> Z -> Z -> plane.
Variable findContours :
  plane -> RetrievalModes -> ContourApproximationModes ->
  list contour * hierarchy.
Variable drawContours : image -> list contour -> Z -> pixel -> Z -> image.

Definition cvtColor_BGR2GRAY (src : image) : plane := map (map gray_of) src.

(** The value of the local variable [edges_dilated] of [detect_wall]. *)
Definition edges_dilated (frame : image) : plane :=
  let gray := cvtColor_BGR2GRAY frame in
  let edges := Canny gray 50 150 in
  let kernel := ones 5 5 in
  dilate edges kernel 1.

(** The value of the local variable [brightness_mask] of [detect_wall] after
    the two morphological passes. *)
Definition brightness_mask (frame : image) : plane :=
  let gray := cvtColor_BGR2GRAY frame in
  let '(_, brightness_mask) := threshold gray 100 255 THRESH_BINARY in
  let kernel := ones 5 5 in
  let brightness_mask := morphologyEx brightness_mask MORPH_CLOSE kernel in
  morphologyEx brightness_mask MORPH_OPEN kernel.

(** [ARColorize.detect_wall].  The HSV conversion of the frame is computed
    by the code and never used; it is left out. *)
Definition detect_wall (frame : image) : plane :=
  let gray := cvtColor_BGR2GRAY frame in
  let edges := Canny gray 50 150 in
  let '(_, brightness_mask) := threshold gray 100 255 THRESH_BINARY in
  let kernel := ones 5 5 in
  let brightness_mask := morphologyEx brightness_mask MORPH_CLOSE kernel in
  let brightness_mask := morphologyEx brightness_mask MORPH_OPEN kernel in
  let edges_dilated := dilate edges kernel 1 in
  let wall_mask := bitwise_and brightness_mask (bitwise_not edges_dilated) in
  wall_mask.

(** [ARColorize.process_frame] *)
Definition process_frame (self : ARColorize) (frame : loc) : M heap loc :=
  f <- load frame ;;
  let wall_mask := detect_wall f in
  result <- apply_color_overlay frame wall_mask (selected_color self)
              default_alpha ;;
  let '(contours, _) :=
    findContours wall_mask RETR_EXTERNAL CHAIN_APPROX_SIMPLE in
  update result (fun r => Ok (drawContours r contours (-1) (0, 255, 0) 2)) ;;;
  ret result.

End Pipeline.

(** ** A concrete instance of the parameters

    Simple total functions with the documented shape of the OpenCV ones; they
    show that the assumptions made on the parameters can be met together. *)

(** Fixed-point luma: 0.114 B + 0.587 G + 0.299 R, scaled by 2^14. *)
Definition gray_fixed (p : pixel) : Z :=
  let '(b, g, r) := p in
  Z.shiftr (b * 1868 + g * 9617 + r * 4899 + 8192) 14.

Definition at_clamped (src : plane) (i j : Z) : Z :=
  let h := Z.of_nat (length src) in
  let y := Z.to_nat (Z.max 0 (Z.min (h - 1) i)) in
  let row := default [] (src !! y) in
  let w := Z.of_nat (length row) in
  default 0 (row !! Z.to_nat (Z.max 0 (Z.min (w - 1) j))).

(** An edge map from central differences: 255 where the L1 gradient
    magnitude exceeds the upper threshold. *)
Definition gradient_edges (src : plane) (threshold1 threshold2 : Z) : plane :=
  imap (fun i row => imap (fun j _ =>
    let y := Z.of_nat i in
    let x := Z.of_nat j in
    let gx := at_clamped src y (x + 1) - at_clamped src y (x - 1) in
    let gy := at_clamped src (y + 1) x - at_clamped src (y - 1) x in
    if threshold2 <? Z.abs gx + Z.abs gy then 255 else 0) row) src.

(** Every set pixel as a one-point contour. *)
Definition point_contours (mask : plane) (mode : RetrievalModes)
    (method : ContourApproximationModes) : list contour * hierarchy :=
  (concat (imap (fun i row =>
     omap id (imap (fun j v =>
       if v =? 0 then None else Some [(Z.of_nat j, Z.of_nat i)]) row)) mask),
   []).

(** Paint the points of the contours. *)
Definition paint_points (img : image) (contours : list contour)
    (contourIdx : Z) (color : pixel) (thickness : Z) : image :=
  imap (fun i row => imap (fun j p =>
    if existsb (fun q => (fst q =? Z.of_nat j) && (snd q =? Z.of_nat i))
         (concat contours)
    then color else p) row) img.

(** The all-black frame of shape (h, w, 3) and the all-zero mask. *)
Definition black (h w : nat) : image := replicate h (replicate w (0, 0, 0)).
Definition zeros (h w : nat) : plane := replicate h (replicate w 0).

(** A plane holds the value [v] somewhere. *)
Definition contains (p : plane) (v : Z) : Prop :=
  exists i j, at2 p i j = Some v.

(** An integer nearest to a rational (any tie-breaking rule). *)
Definition nearest (q : Q) (z : Z) : Prop :=
  (Qabs (q - inject_Z z) <= 1 # 2)%Q.

(** The exact blend [(1 - alpha) * o + alpha * c]. *)
Definition blend (alpha : Q) (o c : Z) : Q :=
  ((1 - alpha) * inject_Z o + alpha * inject_Z c)%Q.




(** The optional single leading [#] of the specification. *)
Definition strip_hash (s : string) : string :=
  match s with
  | String c s' => if Ascii.eqb c "#"%char then s' else s
  | EmptyString => s
  end.

Definition hex_chars : list ascii :=
  list_ascii_of_string "0123456789abcdefABCDEF".

(** What [int] and [hex2] do on one pair of hexadecimal digits. *)
Definition pair_ok (a b : ascii) : bool :=
  match int (String a (String b EmptyString)) 16 with
  | Ok v =>
      (0 <=? v) && (v <=? 255)
      && String.eqb (hex2 v)
           (String (upper_char a) (String (upper_char b) EmptyString))
  | Raise _ => false
  end.

Definition bin (v : Z) : Prop := v = 0 \/ v = 255.

(** The array [overlay] after [overlay[mask > 0] = color]. *)
Definition overlay_of (f : image) (mask : plane) (color : pixel) : image :=
  zip_with (zip_with (fun p m => if 0 <? m then cast_pixel color else p))
    (zeros_like f) mask.

(** The blended frame, pixel by pixel. *)
Definition composite (f : image) (mask : plane) (color : pixel) (alpha : Q)
    : image :=
  zip_with (zip_with (fun p m =>
    if 0 <? m
    then add_weighted_pixel (1 - alpha)%Q alpha 0%Q p (cast_pixel color)
    else p)) f mask.

(** Frames used as examples: a frame whose left half is black and right half
    white, and a small grey frame with a mask that selects its diagonal. *)
Definition half_frame : image :=
  replicate 6 (replicate 4 (0, 0, 0) ++ replicate 4 (255, 255, 255)).
Definition grey_frame : image :=
  [[(100, 100, 100); (10, 20, 30)]; [(0, 255, 7); (100, 100, 100)]].
Definition diagonal_mask : plane := [[255; 0]; [0; 1]].

Ltac each_char c :=
  destruct c as [[] [] [] [] [] [] [] []].


(** ** Further definitions for the properties of the colour operations *)

(** The value of a hexadecimal digit (0 for any other character). *)
Definition hex_value (c : ascii) : Z := default 0 (digit_value c).

(** What [int] does on a pair of hexadecimal digits, on its upper-case form
    and on a digit with a minus sign. *)
Definition pair_value_ok (a b : ascii) : bool :=
  match int (String a (String b EmptyString)) 16,
        int (String (upper_char a) (String (upper_char b) EmptyString)) 16,
        int (String "-"%char (String a EmptyString)) 16 with
  | Ok v, Ok u, Ok w =>
      (v =? 16 * hex_value a + hex_value b) && (u =? v)
      && (w =? - hex_value a) && is_hex_digit (upper_char a)
  | _, _, _ => false
  end.

(** The all-white frame of shape (h, w, 3). *)
Definition white (h w : nat) : image :=
  replicate h (replicate w (255, 255, 255)).



(** ** The camera session: [start_camera], [stop_camera] and [main]

    The camera and the keyboard are inputs: a device delivers a list of
    frames and then fails to deliver, and the list [keys] holds what the
    successive calls of [cv2.waitKey] return (-1 when no key is pressed).
    The [print] calls are not modelled. *)

(** A [cv2.VideoCapture] object: whether it is open and the frames it has
    still to deliver. *)
Record VideoCapture : Type := mkVideoCapture {
  isOpened : bool;
  pending : list image
}.

(** [cv2.VideoCapture(camera_id)]: a device that does not exist gives a
    capture that is not open. *)
Definition open_capture (devices : Z -> option (list image)) (camera_id : Z)
    : VideoCapture :=
  match devices camera_id with
  | Some frames => {| isOpened := true; pending := frames |}
  | None => {| isOpened := false; pending := [] |}
  end.

Definition release (cap : VideoCapture) : VideoCapture :=
  {| isOpened := false; pending := pending cap |}.

(** The object [self] with its camera handle, the arrays, the keyboard and
    the content of the display window. *)
Record session : Type := mkSession {
  ar_colorize : ARColorize;
  cap : option VideoCapture;
  arrays : heap;
  keys : list Z;
  window : option image
}.

Inductive session_exn : Type :=
| RuntimeError             (* "Cannot open camera" *)
| Propagated (e : exn).    (* raised inside the frame pipeline *)

Inductive outcome (A : Type) : Type :=
| Returned (a : A)
| Raised (e : session_exn).
Arguments Returned {A} a.
Arguments Raised {A} e.

Definition set_running (b : bool) (self : ARColorize) : ARColorize :=
  {| selected_color := selected_color self; running := b |}.

(** The dictionary [preset_colors] of [start_camera], keyed by character. *)
Definition preset_colors : list (ascii * pixel) :=
  [("1"%char, (255, 255, 255));   (* White *)
   ("2"%char, (220, 248, 255));   (* Cream *)
   ("3"%char, (211, 211, 211));   (* Light Gray *)
   ("4"%char, (235, 206, 135));   (* Sky Blue *)
   ("5"%char, (152, 255, 152));   (* Mint Green *)
   ("6"%char, (185, 218, 255));   (* Peach *)
   ("7"%char, (250, 230, 230));   (* Lavender *)
   ("8"%char, (80, 127, 255));    (* Coral *)
   ("9"%char, (131, 193, 157))].  (* Sage Green *)

(** [preset_colors[chr(key)]] when [key in [ord(k) for k in preset_colors]]. *)
Definition preset_of_key (key : Z) : option pixel :=
  snd <$> find (fun kc => code (fst kc) =? key) preset_colors.

(** [np.hstack((a, b))] on two arrays of the same height. *)
Definition hstack (a b : image) : result image :=
  if (length a =? length b)%nat then Ok (zip_with app a b)
  else Raise ValueError.

(** [cv2.waitKey(1)]: the next key code, -1 when none is pending. *)
Definition waitKey (ks : list Z) : Z * list Z :=
  match ks with
  | k :: ks' => (k, ks')
  | [] => (-1, [])
  end.

(** [ARColorize.stop_camera] *)
Definition stop_camera (st : session) : session :=
  {| ar_colorize := set_running false (ar_colorize st);
     cap := release <$> cap st;
     arrays := arrays st;
     keys := keys st;
     window := None |}.

Section Session.

Variable gray_of : pixel -> Z.
Variable Canny : plane -> Z -> Z -> plane.
Variable findContours :
  plane -> RetrievalModes -> ContourApproximationModes ->
  list contour * hierarchy.
Variable drawContours : image -> list contour -> Z -> pixel -> Z -> image.

(** The [while] loop of [start_camera], one iteration for each frame the
    capture delivers; [self.running] stays [True] inside the loop, which is
    left by [break] or by an exception. *)
Fixpoint camera_loop (frames : list image) (st : session)
    : outcome unit * session :=
  match frames with
  | [] =>
      (* ret is False: "Failed to grab frame" *)
      (Returned tt, st)
  | frame :: rest =>
      let capture := {| isOpened := true; pending := rest |} in
      let fl := fresh (dom (arrays st)) in
      let h := <[fl := frame]> (arrays st) in
      match process_frame gray_of Canny findContours drawContours
              (ar_colorize st) fl h with
      | (Raise e, h') =>
          (Raised (Propagated e),
           {| ar_colorize := ar_colorize st; cap := Some capture; arrays := h';
              keys := keys st; window := window st |})
      | (Ok r, h') =>
          match hstack frame (default [] (h' !! r)) with
          | Raise e =>
              (Raised (Propagated e),
               {| ar_colorize := ar_colorize st; cap := Some capture; arrays := h';
                  keys := keys st; window := window st |})
          | Ok combined =>
              let '(k, ks) := waitKey (keys st) in
              let key := Z.land k 255 in
              let self :=
                if key =? code "q"%char then ar_colorize st
                else match preset_of_key key with
                     | Some c => set_selected_color c (ar_colorize st)
                     | None => ar_colorize st
                     end in
              let st' := {| ar_colorize := self; cap := Some capture; arrays := h';
                            keys := ks; window := Some combined |} in
              if key =? code "q"%char then (Returned tt, st')
              else camera_loop rest st'
          end
      end
  end.

(** [ARColorize.start_camera] *)
Definition start_camera (devices : Z -> option (list image)) (camera_id : Z)
    (st : session) : outcome unit * session :=
  let capture := open_capture devices camera_id in
  let st1 := {| ar_colorize := ar_colorize st; cap := Some capture; arrays := arrays st;
                keys := keys st; window := window st |} in
  if negb (isOpened capture) then (Raised RuntimeError, st1)
  else
    let st2 := {| ar_colorize := set_running true (ar_colorize st); cap := Some capture;
                  arrays := arrays st; keys := keys st;
                  window := window st |} in
    match camera_loop (pending capture) st2 with
    | (Returned _, st3) => (Returned tt, stop_camera st3)
    | (Raised e, st3) => (Raised e, st3)
    end.

(** [main], from the parsed arguments [--camera] and [--color].  The call of
    [set_color] stands before the [try]; an exception of [start_camera] is
    caught and printed, and [stop_camera] runs in the [finally] clause.  (A
    keyboard interrupt is not modelled.) *)
Definition main (devices : Z -> option (list image)) (pressed : list Z)
    (camera : Z) (color : string) : outcome unit * session :=
  let st0 := {| ar_colorize := init; cap := None; arrays := ∅; keys := pressed;
                window := None |} in
  match set_color color init with
  | (Raise e, self) =>
      (Raised (Propagated e),
       {| ar_colorize := self; cap := None; arrays := ∅; keys := pressed;
          window := None |})
  | (Ok _, self) =>
      let st1 := {| ar_colorize := self; cap := None; arrays := ∅; keys := pressed;
                    window := None |} in
      (Returned tt, stop_camera (snd (start_camera devices camera st1)))
  end.

End Session.


(** Example inputs of a session: one device, number 0, that delivers two
    white frames and one black frame. *)
Definition one_camera (camera_id : Z) : option (list image) :=
  if camera_id =? 0 then Some [white 3 3; white 3 3; black 3 3] else None.

(** The colour selected after at most [n] frames have been shown, from the
    keys pressed: a preset key selects its colour, [q] ends the session and
    any other key changes nothing. *)
Fixpoint color_after (n : nat) (ks : list Z) (c : pixel) : pixel :=
  match n with
  | O => c
  | S n' =>
      let key := Z.land (fst (waitKey ks)) 255 in
      if key =? code "q"%char then c
      else color_after n' (snd (waitKey ks)) (default c (preset_of_key key))
  end.

(** The state in which [main] starts the camera. *)
Definition initial_session (self : ARColorize) (pressed : list Z) : session :=
  {| ar_colorize := self; cap := None; arrays := ∅; keys := pressed;
     window := None |}.

(** A device that delivers a black frame first. *)
Definition dark_camera (camera_id : Z) : option (list image) :=
  Some [black 3 3; white 3 3].
(** * Properties *)

(** ** Colour parsing *)

Lemma is_hex_digit_enum (c : ascii) :
  is_hex_digit c = existsb (Ascii.eqb c) hex_chars.
Proof. each_char c; vm_compute; reflexivity. Qed.

Lemma upper_char_idem (c : ascii) : upper_char (upper_char c) = upper_char c.
Proof. each_char c; vm_compute; reflexivity. Qed.

Lemma is_hex_digit_in (c : ascii) : is_hex_digit c = true -> In c hex_chars.
Proof.
  rewrite is_hex_digit_enum. intros H.
  apply existsb_exists in H as (x & Hin & Heq).
  apply Ascii.eqb_eq in Heq. now subst.
Qed.

Lemma not_hash (c : ascii) : is_hex_digit c = true -> Ascii.eqb c "#"%char = false.
Proof.
  intros H. apply is_hex_digit_in in H.
  unfold hex_chars in H. simpl in H.
  repeat (destruct H as [<- | H]; [reflexivity |]). destruct H.
Qed.

Lemma pair_ok_all :
  forallb (fun a => forallb (pair_ok a) hex_chars) hex_chars = true.
Proof. vm_compute. reflexivity. Qed.

Lemma pair_spec (a b : ascii) :
  is_hex_digit a = true -> is_hex_digit b = true ->
  exists v, int (String a (String b EmptyString)) 16 = Ok v
            /\ in_uint8 v
            /\ hex2 v = String (upper_char a) (String (upper_char b) EmptyString).
Proof.
  intros Ha Hb. apply is_hex_digit_in in Ha, Hb.
  pose proof pair_ok_all as H.
  rewrite forallb_forall in H. specialize (H a Ha).
  rewrite forallb_forall in H. specialize (H b Hb).
  unfold pair_ok in H.
  destruct (int (String a (String b EmptyString)) 16) as [v|]; [|discriminate].
  apply andb_true_iff in H as [H Hs]. apply andb_true_iff in H as [H0 H1].
  exists v. split; [reflexivity|]. split; [unfold in_uint8; lia|].
  now apply String.eqb_eq.
Qed.

Lemma hex6_chars (s : string) :
  is_hex6 s = true ->
  exists a1 a2 a3 a4 a5 a6,
    s = String a1 (String a2 (String a3 (String a4 (String a5 (String a6
          EmptyString)))))
    /\ Forall (fun c => is_hex_digit c = true) [a1; a2; a3; a4; a5; a6].
Proof.
  unfold is_hex6. intros H. apply andb_true_iff in H as [Hl Hd].
  apply Nat.eqb_eq in Hl.
  destruct s as [|a1 [|a2 [|a3 [|a4 [|a5 [|a6 [|? ?]]]]]]]; try discriminate.
  exists a1, a2, a3, a4, a5, a6. split; [reflexivity|].
  simpl in Hd. repeat (apply andb_true_iff in Hd as [? Hd]).
  repeat constructor; assumption.
Qed.

(** [hex_to_bgr] on six hexadecimal digits: the three channels and their
    rendering. *)
Lemma hex_to_bgr_hex6 (s : string) :
  is_hex6 s = true ->
  exists c, hex_to_bgr s = Ok c
            /\ pixel_in_range c
            /\ bgr_to_hex c = String "#"%char (upper s).
Proof.
  intros H. destruct (hex6_chars s H) as (a1 & a2 & a3 & a4 & a5 & a6 & -> & Hd).
  repeat match goal with
         | Hf : Forall _ (_ :: _) |- _ => inversion Hf; subst; clear Hf
         end.
  destruct (pair_spec a1 a2) as (r & Hr & Rr & Xr); try assumption.
  destruct (pair_spec a3 a4) as (g & Hg & Rg & Xg); try assumption.
  destruct (pair_spec a5 a6) as (b & Hb & Rb & Xb); try assumption.
  exists (b, g, r). unfold hex_to_bgr. cbn [lstrip].
  rewrite (not_hash a1) by assumption.
  unfold slice. cbn [substring Nat.sub]. rewrite Hr, Hg, Hb. cbn [rbind].
  split; [reflexivity|]. split; [exact (conj Rb (conj Rg Rr))|].
  unfold bgr_to_hex. rewrite Xr, Xg, Xb. reflexivity.
Qed.

Lemma lstrip_hash_hex6 (s : string) :
  is_hex6 (strip_hash s) = true ->
  lstrip "#"%char s = strip_hash s.
Proof.
  intros H. destruct s as [|c s]; [reflexivity|].
  cbn [strip_hash lstrip] in *.
  destruct (Ascii.eqb c "#"%char) eqn:Ec.
  - destruct (hex6_chars _ H) as (a1 & ? & ? & ? & ? & ? & -> & Hd).
    inversion Hd; subst. cbn [lstrip]. now rewrite not_hash.
  - reflexivity.
Qed.

Lemma hex_to_bgr_strip (s : string) :
  is_hex6 (strip_hash s) = true -> hex_to_bgr s = hex_to_bgr (strip_hash s).
Proof.
  intros H. unfold hex_to_bgr.
  rewrite (lstrip_hash_hex6 s H).
  destruct (hex6_chars _ H) as (a1 & ? & ? & ? & ? & ? & E & Hd).
  rewrite E. inversion Hd; subst. cbn [lstrip]. now rewrite not_hash.
Qed.

Lemma upper_upper (s : string) : upper (upper s) = upper s.
Proof. induction s as [|c s IH]; cbn; [reflexivity|]. now rewrite upper_char_idem, IH. Qed.

(** C5. A string of six hexadecimal digits, written with or without the
    leading [#] and in either case of letters, is parsed by [hex_to_bgr] to a
    triple of channels in 0..255, and writing that triple back as a hex string
    gives the string again (up to the case of letters, with its [#]). *)
Theorem hex_round_trip (s : string) :
  is_hex6 s = true ->
  exists c, hex_to_bgr s = Ok c
            /\ hex_to_bgr (String "#"%char s) = Ok c
            /\ pixel_in_range c
            /\ eq_nocase (bgr_to_hex c) (String "#"%char s).
Proof.
  intros H. destruct (hex_to_bgr_hex6 s H) as (c & Hc & Hr & Hx).
  exists c. split; [assumption|]. split.
  - rewrite (hex_to_bgr_strip (String "#"%char s)); [exact Hc | exact H].
  - split; [assumption|]. unfold eq_nocase. rewrite Hx. cbn [upper].
    now rewrite upper_upper.
Qed.

Lemma hex_round_trip_witness :
  exists c, hex_to_bgr "ff7f50" = Ok c
            /\ hex_to_bgr "#ff7f50" = Ok c
            /\ pixel_in_range c
            /\ eq_nocase (bgr_to_hex c) "#ff7f50".
Proof. apply (hex_round_trip "ff7f50"). reflexivity. Defined.

(** The other direction: every triple of channels in 0..255 is written and
    parsed back unchanged. *)
Lemma int_hex2_all :
  forallb (fun n => match int (hex2 (Z.of_nat n)) 16 with
                    | Ok v => v =? Z.of_nat n
                    | Raise _ => false
                    end) (seq 0 256) = true.
Proof. vm_compute. reflexivity. Qed.

Lemma int_hex2 (v : Z) : in_uint8 v -> int (hex2 v) 16 = Ok v.
Proof.
  intros Hv. pose proof int_hex2_all as H. rewrite forallb_forall in H.
  specialize (H (Z.to_nat v)).
  rewrite Z2Nat.id in H by (unfold in_uint8 in Hv; lia).
  assert (Hin : In (Z.to_nat v) (seq 0 256)).
  { apply in_seq. unfold in_uint8 in Hv. lia. }
  specialize (H Hin).
  destruct (int (hex2 v) 16) as [u|]; [|discriminate].
  apply Z.eqb_eq in H. now subst.
Qed.

Lemma hex_char_not_hash (v : Z) :
  0 <= v < 16 -> Ascii.eqb (hex_char v) "#"%char = false.
Proof.
  intros Hv. rewrite <- (Z2Nat.id v) by lia.
  assert (Hn : (Z.to_nat v < 16)%nat) by lia.
  revert Hn. generalize (Z.to_nat v). intros n Hn.
  do 16 (destruct n as [|n]; [reflexivity|]). lia.
Qed.

Lemma bgr_hex_round_trip (c : pixel) :
  pixel_in_range c -> hex_to_bgr (bgr_to_hex c) = Ok c.
Proof.
  destruct c as [[b g] r]. intros (Hb & Hg & Hr).
  pose proof (int_hex2 r Hr) as Ir. pose proof (int_hex2 g Hg) as Ig.
  pose proof (int_hex2 b Hb) as Ib.
  assert (Nr : Ascii.eqb (hex_char (r / 16)) "#"%char = false).
  { apply hex_char_not_hash. unfold in_uint8 in Hr.
    split; [apply Z.div_pos; lia | apply Z.div_lt_upper_bound; lia]. }
  unfold hex_to_bgr, bgr_to_hex, hex2 in *.
  cbv [String.append]. cbn [lstrip].
  change (Ascii.eqb "#" "#") with true. cbn iota.
  rewrite Nr. unfold slice. cbn [substring Nat.sub].
  rewrite Ir, Ig, Ib. reflexivity.
Qed.

Lemma int_raises (s : string) (base : Z) (e : exn) :
  int s base = Raise e -> e = ValueError.
Proof.
  unfold int. destruct (split_sign _) as [sign cs].
  destruct (skip_prefix base cs) as [|c cs']; [congruence|].
  destruct (Ascii.eqb c underscore); [congruence|].
  destruct (digits base false 0 (c :: cs')); congruence.
Qed.

Lemma hex_to_bgr_raises (s : string) (e : exn) :
  hex_to_bgr s = Raise e -> e = ValueError.
Proof.
  unfold hex_to_bgr.
  destruct (int (slice _ 0 2) 16) eqn:E1; cbn [rbind];
    [|intros [= <-]; exact (int_raises _ _ _ E1)].
  destruct (int (slice _ 2 4) 16) eqn:E2; cbn [rbind];
    [|intros [= <-]; exact (int_raises _ _ _ E2)].
  destruct (int (slice _ 4 6) 16) eqn:E3; cbn [rbind];
    [discriminate|intros [= <-]; exact (int_raises _ _ _ E3)].
Qed.

(** [set_color] stores what [hex_to_bgr] returns and keeps the state when
    [hex_to_bgr] raises. *)
Lemma set_color_run (s : string) (self : ARColorize) :
  set_color s self =
  match hex_to_bgr s with
  | Ok c => (Ok tt, set_selected_color c self)
  | Raise e => (Raise e, self)
  end.
Proof. unfold set_color, bind, lift, modify. now destruct (hex_to_bgr s). Qed.

Lemma set_color_hex6 (s : string) (self : ARColorize) :
  is_hex6 (strip_hash s) = true ->
  exists c, set_color s self = (Ok tt, set_selected_color c self)
            /\ hex_to_bgr s = Ok c /\ pixel_in_range c.
Proof.
  intros H. destruct (hex_to_bgr_hex6 _ H) as (c & Hc & Hr & _).
  rewrite <- hex_to_bgr_strip in Hc by assumption.
  exists c. rewrite set_color_run, Hc. auto.
Qed.

(** C6 (as amended). When [set_color] fails, the exception is Python's
    [ValueError], the selected colour (the whole state) is what it was before
    the call, and the argument is not six hexadecimal digits after an optional
    leading [#] is removed; so every six-digit argument is accepted. *)
Theorem set_color_failure (s : string) (self self' : ARColorize) (e : exn) :
  set_color s self = (Raise e, self') ->
  e = ValueError /\ self' = self /\ is_hex6 (strip_hash s) = false.
Proof.
  intros H. destruct (is_hex6 (strip_hash s)) eqn:E.
  - destruct (set_color_hex6 s self E) as (c & Hc & _). congruence.
  - rewrite set_color_run in H.
    destruct (hex_to_bgr s) as [c|e'] eqn:Eh; [discriminate|].
    injection H as <- <-. split; [|auto]. exact (hex_to_bgr_raises _ _ Eh).
Qed.

Lemma set_color_failure_witness :
  ValueError = ValueError /\ init = init
  /\ is_hex6 (strip_hash "ZZZZZZ") = false.
Proof. apply (set_color_failure "ZZZZZZ" init init ValueError). reflexivity. Defined.

(** C6, the claim as stated fails: an argument of eight hexadecimal digits is
    not six hexadecimal digits, and [set_color] accepts it. *)
Lemma set_color_accepts_eight_digits :
  is_hex6 (strip_hash "FFFFFFFF") = false
  /\ set_color "FFFFFFFF" (set_selected_color (1, 2, 3) init)
     = (Ok tt, set_selected_color (255, 255, 255) init).
Proof. split; reflexivity. Qed.





(** ** Shapes and element-wise operations *)

Lemma same_shape_spec {A B} (a : list (list A)) (b : list (list B)) :
  same_shape a b = true <->
  length a = length b /\
  forall i r s, a !! i = Some r -> b !! i = Some s -> length r = length s.
Proof.
  revert b. induction a as [|r a IH]; intros [|s b]; cbn [same_shape].
  - split; [intros _; split; [reflexivity | intros i r s H; destruct i; discriminate] | reflexivity].
  - split; [discriminate | intros [H _]; discriminate].
  - split; [discriminate | intros [H _]; discriminate].
  - rewrite andb_true_iff, Nat.eqb_eq, IH. split.
    + intros (Hl & Hlen & Hrows). split; [cbn; lia|].
      intros [|i] r' s' Hr Hs; cbn in Hr, Hs.
      * congruence.
      * eapply Hrows; eassumption.
    + intros (Hlen & Hrows). split; [exact (Hrows 0%nat r s eq_refl eq_refl)|].
      split; [cbn in Hlen; lia|].
      intros i r' s' Hr Hs. exact (Hrows (S i) r' s' Hr Hs).
Qed.

Lemma same_shape_refl {A} (a : list (list A)) : same_shape a a = true.
Proof. apply same_shape_spec. split; [reflexivity | congruence]. Qed.

Lemma same_shape_sym {A B} (a : list (list A)) (b : list (list B)) :
  same_shape a b = true -> same_shape b a = true.
Proof.
  rewrite !same_shape_spec. intros [Hl Hr]. split; [lia|].
  intros i r s H1 H2. symmetry. eapply Hr; eassumption.
Qed.

Lemma same_shape_trans {A B C} (a : list (list A)) (b : list (list B))
    (c : list (list C)) :
  same_shape a b = true -> same_shape b c = true -> same_shape a c = true.
Proof.
  rewrite !same_shape_spec. intros [Hl1 Hr1] [Hl2 Hr2]. split; [lia|].
  intros i r t Ha Hc.
  destruct (lookup_lt_is_Some_2 b i) as [s Hs].
  { rewrite <- Hl1. eapply lookup_lt_Some; eassumption. }
  rewrite (Hr1 i r s Ha Hs). eapply Hr2; eassumption.
Qed.

Lemma same_shape_map {A B} (f : A -> B) (a : list (list A)) :
  same_shape (map (map f) a) a = true.
Proof.
  induction a as [|r a IH]; cbn; [reflexivity|].
  rewrite length_map, Nat.eqb_refl. exact IH.
Qed.

Lemma same_shape_imap {A B} (f : nat -> nat -> A -> B) (a : list (list A)) :
  same_shape (imap (fun i row => imap (f i) row) a) a = true.
Proof.
  apply same_shape_spec. split; [apply length_imap|].
  intros i r s Hr Hs. rewrite list_lookup_imap, Hs in Hr.
  cbn in Hr. injection Hr as <-. apply length_imap.
Qed.

Lemma same_shape_zip_with {A B C} (f : A -> B -> C) (a : list (list A))
    (b : list (list B)) :
  same_shape a b = true ->
  same_shape (zip_with (zip_with f) a b) a = true.
Proof.
  revert b. induction a as [|r a IH]; intros [|s b]; cbn; try reflexivity;
    try discriminate.
  rewrite andb_true_iff, Nat.eqb_eq. intros [Hl Hs].
  rewrite length_zip_with, <- Hl, Nat.min_id, Nat.eqb_refl. cbn. now apply IH.
Qed.

Lemma same_shape_replicate {A B} (h w : nat) (x : A) (b : list (list B)) :
  same_shape b (replicate h (replicate w x)) = true <-> has_shape h w b.
Proof.
  unfold has_shape. revert b. induction h as [|h IH]; intros [|r b]; cbn.
  - split; [intros _; split; [reflexivity | constructor] | reflexivity].
  - split; [discriminate | intros [H _]; discriminate].
  - split; [discriminate | intros [H _]; discriminate].
  - rewrite andb_true_iff, Nat.eqb_eq, IH, length_replicate. split.
    + intros (Hr & Hl & Hf). split; [lia | now constructor].
    + intros (Hl & Hf). inversion Hf; subst. repeat split; auto; lia.
Qed.

Lemma at2_same_shape {A B} (a : list (list A)) (b : list (list B)) i j x :
  same_shape a b = true -> at2 a i j = Some x -> exists y, at2 b i j = Some y.
Proof.
  rewrite same_shape_spec. intros [Hl Hr]. unfold at2.
  destruct (a !! i) as [r|] eqn:Er; [|discriminate]. cbn. intros Hx.
  destruct (lookup_lt_is_Some_2 b i) as [s Hs].
  { rewrite <- Hl. eapply lookup_lt_Some; eassumption. }
  rewrite Hs. cbn. apply lookup_lt_is_Some_2.
  rewrite <- (Hr i r s Er Hs). eapply lookup_lt_Some; eassumption.
Qed.

Lemma at2_map {A B} (f : A -> B) (a : list (list A)) i j :
  at2 (map (map f) a) i j = f <$> at2 a i j.
Proof.
  unfold at2. change (map (map f) a) with (map f <$> a).
  rewrite list_lookup_fmap. destruct (a !! i) as [r|]; cbn; [|reflexivity].
  change (map f r) with (f <$> r). apply list_lookup_fmap.
Qed.

Lemma at2_zip_with {A B C} (f : A -> B -> C) (a : list (list A))
    (b : list (list B)) i j x y :
  at2 a i j = Some x -> at2 b i j = Some y ->
  at2 (zip_with (zip_with f) a b) i j = Some (f x y).
Proof.
  unfold at2. intros Ha Hb. rewrite lookup_zip_with.
  destruct (a !! i) as [r|]; [|discriminate].
  destruct (b !! i) as [s|]; [|discriminate]. cbn in *.
  rewrite lookup_zip_with, Ha, Hb. reflexivity.
Qed.

Lemma at2_imap {A B} (f : nat -> nat -> A -> B) (a : list (list A)) i j :
  at2 (imap (fun i row => imap (f i) row) a) i j = f i j <$> at2 a i j.
Proof.
  unfold at2. rewrite list_lookup_imap.
  destruct (a !! i) as [r|]; cbn; [|reflexivity]. apply list_lookup_imap.
Qed.

Lemma at2_replicate {A} (h w : nat) (x y : A) i j :
  at2 (replicate h (replicate w x)) i j = Some y -> y = x.
Proof.
  unfold at2. intros H.
  destruct (replicate h (replicate w x) !! i) as [r|] eqn:E; [|discriminate].
  apply lookup_replicate in E as [-> _]. cbn in H.
  now apply lookup_replicate in H as [-> _].
Qed.

(** Two arrays of one shape with the same elements are equal. *)
Lemma at2_ext {A} (a b : list (list A)) :
  same_shape a b = true -> (forall i j, at2 a i j = at2 b i j) -> a = b.
Proof.
  revert b. induction a as [|r a IH]; intros [|s b]; cbn; try discriminate;
    [reflexivity|].
  rewrite andb_true_iff, Nat.eqb_eq. intros [Hl Hs] H. f_equal.
  - apply list_eq. intros j. exact (H 0%nat j).
  - apply IH; [assumption|]. intros i j. exact (H (S i) j).
Qed.

Lemma Forall2d_at2 {A} (P : A -> Prop) (a : list (list A)) :
  Forall (Forall P) a <-> forall i j x, at2 a i j = Some x -> P x.
Proof.
  unfold at2. rewrite Forall_lookup. split.
  - intros H i j x Hx. destruct (a !! i) as [r|] eqn:E; [|discriminate].
    cbn in Hx. specialize (H i r E). rewrite Forall_lookup in H.
    eapply H; eassumption.
  - intros H i r E. rewrite Forall_lookup. intros j x Hx.
    apply (H i j x). now rewrite E.
Qed.

(** ** The OpenCV operations: shapes and binary arrays *)

Lemma binary_plane_at2 (p : plane) :
  binary_plane p <-> forall i j x, at2 p i j = Some x -> bin x.
Proof. apply Forall2d_at2. Qed.

Lemma neighbourhood_elem (src kernel : plane) i j x :
  x ∈ neighbourhood src kernel i j -> exists i' j', at2 src i' j' = Some x.
Proof.
  unfold neighbourhood. rewrite list_elem_of_omap. intros (d & _ & H).
  unfold at_offset in H.
  destruct ((0 <=? _) && (0 <=? _)); [|discriminate]. eauto.
Qed.

Lemma foldr_closed (P : Z -> Prop) (op : Z -> Z -> Z) (unit : Z) (l : list Z) :
  P unit -> (forall x y, P x -> P y -> P (op x y)) ->
  (forall x, x ∈ l -> P x) -> P (foldr op unit l).
Proof.
  intros Hu Hop. induction l as [|x l IH]; intros Hl; cbn; [assumption|].
  apply Hop; [apply Hl; left | apply IH; intros y Hy; apply Hl; now right].
Qed.

Lemma morph_shape op unit kernel src :
  same_shape (morph op unit kernel src) src = true.
Proof. unfold morph. apply (same_shape_imap (fun i j _ => _)). Qed.

Lemma morph_binary op unit kernel src :
  bin unit -> (forall x y, bin x -> bin y -> bin (op x y)) ->
  binary_plane src -> binary_plane (morph op unit kernel src).
Proof.
  intros Hu Hop Hs. apply binary_plane_at2. intros i j x.
  unfold morph. rewrite (at2_imap (fun i j _ => _)).
  destruct (at2 src i j); [|discriminate]. cbn. intros [= <-].
  apply foldr_closed; [assumption | assumption |].
  intros y Hy. apply neighbourhood_elem in Hy as (i' & j' & Hy).
  rewrite binary_plane_at2 in Hs. eapply Hs; eassumption.
Qed.

Lemma max_bin x y : bin x -> bin y -> bin (Z.max x y).
Proof. unfold bin. lia. Qed.
Lemma min_bin x y : bin x -> bin y -> bin (Z.min x y).
Proof. unfold bin. lia. Qed.
Lemma land_bin x y : bin x -> bin y -> bin (Z.land x y).
Proof. intros [-> | ->] [-> | ->]; vm_compute; auto. Qed.
Lemma lnot_bin x : bin x -> bin (Z.land (Z.lnot x) 255).
Proof. intros [-> | ->]; vm_compute; auto. Qed.

Lemma dilate_shape src kernel n : same_shape (dilate src kernel n) src = true.
Proof.
  unfold dilate. induction n as [|n IH]; cbn; [apply same_shape_refl|].
  eapply same_shape_trans; [apply morph_shape | exact IH].
Qed.

Lemma erode_shape src kernel n : same_shape (erode src kernel n) src = true.
Proof.
  unfold erode. induction n as [|n IH]; cbn; [apply same_shape_refl|].
  eapply same_shape_trans; [apply morph_shape | exact IH].
Qed.

Lemma dilate_binary src kernel n :
  binary_plane src -> binary_plane (dilate src kernel n).
Proof.
  intros H. unfold dilate. induction n as [|n IH]; cbn; [assumption|].
  apply morph_binary; [now left | exact max_bin | exact IH].
Qed.

Lemma erode_binary src kernel n :
  binary_plane src -> binary_plane (erode src kernel n).
Proof.
  intros H. unfold erode. induction n as [|n IH]; cbn; [assumption|].
  apply morph_binary; [now right | exact min_bin | exact IH].
Qed.

Lemma morphologyEx_shape src op kernel :
  same_shape (morphologyEx src op kernel) src = true.
Proof.
  destruct op; cbn [morphologyEx].
  - eapply same_shape_trans; [apply dilate_shape | apply erode_shape].
  - eapply same_shape_trans; [apply erode_shape | apply dilate_shape].
Qed.

Lemma morphologyEx_binary src op kernel :
  binary_plane src -> binary_plane (morphologyEx src op kernel).
Proof.
  intros H. destruct op; cbn [morphologyEx];
    auto using dilate_binary, erode_binary.
Qed.

Lemma threshold_shape src t mv ty : same_shape (snd (threshold src t mv ty)) src = true.
Proof. cbn. apply same_shape_map. Qed.

Lemma threshold_binary src t ty : binary_plane (snd (threshold src t 255 ty)).
Proof.
  apply binary_plane_at2. intros i j x. cbn. rewrite at2_map.
  destruct (at2 src i j) as [v|]; [|discriminate]. cbn. intros [= <-].
  destruct ty; destruct (t <? v); unfold bin; auto.
Qed.

Lemma bitwise_not_shape src : same_shape (bitwise_not src) src = true.
Proof. apply same_shape_map. Qed.

Lemma bitwise_not_binary src : binary_plane src -> binary_plane (bitwise_not src).
Proof.
  rewrite !binary_plane_at2. intros H i j x. unfold bitwise_not.
  rewrite at2_map. destruct (at2 src i j) as [v|] eqn:E; [|discriminate].
  cbn. intros [= <-]. apply lnot_bin. eapply H; eassumption.
Qed.

Lemma at2_bitwise_and a b i j z :
  at2 (bitwise_and a b) i j = Some z ->
  exists x y, at2 a i j = Some x /\ at2 b i j = Some y /\ z = Z.land x y.
Proof.
  unfold bitwise_and, at2. rewrite lookup_zip_with.
  destruct (a !! i) as [r|]; cbn; [|discriminate].
  destruct (b !! i) as [s|]; cbn; [|discriminate].
  rewrite lookup_zip_with.
  destruct (r !! j) as [x|]; cbn; [|discriminate].
  destruct (s !! j) as [y|]; cbn; [|discriminate].
  intros [= <-]. eauto.
Qed.

Lemma bitwise_and_binary a b :
  binary_plane a -> binary_plane b -> binary_plane (bitwise_and a b).
Proof.
  rewrite !binary_plane_at2. intros Ha Hb i j z Hz.
  apply at2_bitwise_and in Hz as (x & y & Hx & Hy & ->).
  apply land_bin; [eapply Ha | eapply Hb]; eassumption.
Qed.

(** *** Constant-zero arrays *)

Lemma foldr_zeros (op : Z -> Z -> Z) (unit : Z) (l : list Z) :
  op 0 0 = 0 -> op 0 unit = 0 -> l <> [] -> (forall x, x ∈ l -> x = 0) ->
  foldr op unit l = 0.
Proof.
  intros H00 H0u. induction l as [|x l IH]; intros Hne Hl; [congruence|].
  cbn. rewrite (Hl x) by left.
  destruct l as [|y l]; [exact H0u|].
  rewrite IH; [exact H00 | discriminate | intros z Hz; apply Hl; now right].
Qed.

Lemma neighbourhood_centre (src kernel : plane) i j x :
  (0, 0) ∈ kernel_offsets kernel -> at2 src i j = Some x ->
  x ∈ neighbourhood src kernel i j.
Proof.
  intros Hk Hx. unfold neighbourhood. rewrite list_elem_of_omap.
  exists (0, 0). split; [assumption|].
  unfold at_offset. cbn [fst snd]. rewrite !Z.add_0_r, !Nat2Z.id.
  replace ((0 <=? Z.of_nat i) && (0 <=? Z.of_nat j)) with true; [assumption|].
  symmetry. apply andb_true_iff. split; apply Z.leb_le; lia.
Qed.

Lemma morph_zeros op unit kernel h w :
  op 0 0 = 0 -> op 0 unit = 0 -> (0, 0) ∈ kernel_offsets kernel ->
  morph op unit kernel (zeros h w) = zeros h w.
Proof.
  intros H00 H0u Hk. apply at2_ext; [apply morph_shape|].
  intros i j. unfold morph. rewrite (at2_imap (fun i j _ => _)).
  destruct (at2 (zeros h w) i j) as [x|] eqn:E; [|reflexivity]. cbn.
  pose proof (at2_replicate _ _ _ _ _ _ E) as ->. f_equal.
  apply foldr_zeros; try assumption.
  - intros Hn. pose proof (neighbourhood_centre _ kernel _ _ _ Hk E) as Hin.
    rewrite Hn in Hin. inversion Hin.
  - intros x Hx. apply neighbourhood_elem in Hx as (i' & j' & Hx).
    exact (at2_replicate _ _ _ _ _ _ Hx).
Qed.

Lemma centre_in_ones_5_5 : (0, 0) ∈ kernel_offsets (ones 5 5).
Proof. apply list_elem_of_In. vm_compute. tauto. Qed.

Lemma morphologyEx_zeros op h w :
  morphologyEx (zeros h w) op (ones 5 5) = zeros h w.
Proof.
  assert (Hd : morph Z.max 0 (ones 5 5) (zeros h w) = zeros h w)
    by (apply morph_zeros; auto using centre_in_ones_5_5).
  assert (He : morph Z.min 255 (ones 5 5) (zeros h w) = zeros h w)
    by (apply morph_zeros; auto using centre_in_ones_5_5).
  destruct op; unfold morphologyEx, dilate, erode; cbv [Nat.iter nat_rect];
    rewrite ?Hd, ?He, ?Hd; reflexivity.
Qed.

Lemma bitwise_and_zeros h w (b : plane) :
  same_shape b (zeros h w) = true -> bitwise_and (zeros h w) b = zeros h w.
Proof.
  intros Hs. apply at2_ext.
  - unfold bitwise_and. apply same_shape_zip_with. now apply same_shape_sym.
  - intros i j. destruct (at2 (zeros h w) i j) as [x|] eqn:E.
    + pose proof (at2_replicate _ _ _ _ _ _ E) as ->.
      destruct (at2_same_shape _ b _ _ _ (same_shape_sym _ _ Hs) E) as [y Hy].
      unfold bitwise_and. now rewrite (at2_zip_with _ _ _ _ _ _ _ E Hy).
    + destruct (at2 (bitwise_and _ _) i j) as [z|] eqn:Ez; [|reflexivity].
      apply at2_bitwise_and in Ez as (x & y & Hx & _). congruence.
Qed.

(** ** Segmentation *)

Section Segmentation.

Variable gray_of : pixel -> Z.
Variable Canny : plane -> Z -> Z -> plane.

(** The documented behaviour of [cv2.Canny] that the properties use: the
    edge map has the size of its input and holds only 0 and 255. *)
Hypothesis Canny_shape :
  forall src t1 t2, same_shape (Canny src t1 t2) src = true.
Hypothesis Canny_binary :
  forall src t1 t2, binary_plane (Canny src t1 t2).
(** A black pixel has intensity 0. *)
Hypothesis gray_black : gray_of (0, 0, 0) = 0.

Lemma cvtColor_BGR2GRAY_shape (frame : image) :
  same_shape (cvtColor_BGR2GRAY gray_of frame) frame = true.
Proof. apply same_shape_map. Qed.

Lemma edges_dilated_shape (frame : image) :
  same_shape (edges_dilated gray_of Canny frame) frame = true.
Proof using Canny_shape.
  unfold edges_dilated.
  eapply same_shape_trans; [apply dilate_shape|].
  eapply same_shape_trans; [apply Canny_shape|].
  apply cvtColor_BGR2GRAY_shape.
Qed.

Lemma edges_dilated_binary (frame : image) :
  binary_plane (edges_dilated gray_of Canny frame).
Proof using Canny_binary.
  unfold edges_dilated. apply dilate_binary, Canny_binary.
Qed.

Lemma brightness_mask_unfold (frame : image) :
  brightness_mask gray_of frame =
  morphologyEx
    (morphologyEx
       (snd (threshold (cvtColor_BGR2GRAY gray_of frame) 100 255 THRESH_BINARY))
       MORPH_CLOSE (ones 5 5))
    MORPH_OPEN (ones 5 5).
Proof. reflexivity. Qed.

Lemma detect_wall_unfold (frame : image) :
  detect_wall gray_of Canny frame =
  bitwise_and (brightness_mask gray_of frame)
    (bitwise_not (edges_dilated gray_of Canny frame)).
Proof. reflexivity. Qed.

Lemma brightness_mask_shape (frame : image) :
  same_shape (brightness_mask gray_of frame) frame = true.
Proof.
  rewrite brightness_mask_unfold.
  eapply same_shape_trans; [apply morphologyEx_shape|].
  eapply same_shape_trans; [apply morphologyEx_shape|].
  eapply same_shape_trans; [apply threshold_shape|].
  apply cvtColor_BGR2GRAY_shape.
Qed.

Lemma brightness_mask_binary (frame : image) :
  binary_plane (brightness_mask gray_of frame).
Proof.
  rewrite brightness_mask_unfold.
  apply morphologyEx_binary, morphologyEx_binary, threshold_binary.
Qed.

(** [detect_wall] returns a mask of the height and width of the frame. *)
Lemma detect_wall_shape (frame : image) :
  same_shape (detect_wall gray_of Canny frame) frame = true.
Proof using Canny_shape.
  rewrite detect_wall_unfold. unfold bitwise_and.
  eapply same_shape_trans; [|apply brightness_mask_shape].
  apply same_shape_zip_with.
  eapply same_shape_trans; [apply brightness_mask_shape|].
  apply same_shape_sym.
  eapply same_shape_trans; [apply bitwise_not_shape|].
  apply edges_dilated_shape.
Qed.

(** C3. Wherever the dilated edge map computed inside [detect_wall] is set
    (non-zero), the mask that [detect_wall] returns holds 0. *)
Theorem edge_exclusion (frame : image) (i j : nat) (e : Z) :
  at2 (edges_dilated gray_of Canny frame) i j = Some e ->
  e <> 0 ->
  at2 (detect_wall gray_of Canny frame) i j = Some 0.
Proof using Canny_shape Canny_binary.
  intros He Hne.
  assert (e = 255) as ->.
  { pose proof (edges_dilated_binary frame) as Hb.
    rewrite binary_plane_at2 in Hb. destruct (Hb i j e He); congruence. }
  destruct (at2_same_shape _ (brightness_mask gray_of frame) i j _
              (same_shape_trans _ _ _ (edges_dilated_shape frame)
                 (same_shape_sym _ _ (brightness_mask_shape frame))) He)
    as [b Hb].
  rewrite detect_wall_unfold. unfold bitwise_and.
  rewrite (at2_zip_with Z.land _ _ i j b (Z.land (Z.lnot 255) 255) Hb).
  - f_equal. change (Z.land (Z.lnot 255) 255) with 0. apply Z.land_0_r.
  - unfold bitwise_not. rewrite at2_map, He. reflexivity.
Qed.

(** C4 (as amended). Every element of the mask that [detect_wall] returns
    is 0 or 255. *)
Theorem detect_wall_binary (frame : image) :
  binary_plane (detect_wall gray_of Canny frame).
Proof using Canny_binary.
  rewrite detect_wall_unfold.
  apply bitwise_and_binary; [apply brightness_mask_binary|].
  apply bitwise_not_binary, edges_dilated_binary.
Qed.

Lemma cvtColor_BGR2GRAY_black (h w : nat) :
  cvtColor_BGR2GRAY gray_of (black h w) = zeros h w.
Proof using gray_black.
  unfold cvtColor_BGR2GRAY, black, zeros.
  change (map (map gray_of)) with (fmap (M := list) (fmap (M := list) gray_of)).
  rewrite !fmap_replicate, gray_black. reflexivity.
Qed.

Lemma threshold_zeros (h w : nat) :
  snd (threshold (zeros h w) 100 255 THRESH_BINARY) = zeros h w.
Proof.
  cbn [snd threshold]. unfold zeros.
  change (map (map ?f)) with (fmap (M := list) (fmap (M := list) f)).
  rewrite !fmap_replicate. reflexivity.
Qed.

(** A fully dark frame gives the all-zero mask. *)
Lemma detect_wall_black (h w : nat) :
  detect_wall gray_of Canny (black h w) = zeros h w.
Proof using Canny_shape gray_black.
  rewrite detect_wall_unfold, brightness_mask_unfold.
  rewrite cvtColor_BGR2GRAY_black, threshold_zeros, !morphologyEx_zeros.
  apply bitwise_and_zeros.
  eapply same_shape_trans; [apply bitwise_not_shape|].
  eapply same_shape_trans; [apply edges_dilated_shape|].
  apply same_shape_replicate. split; [apply length_replicate|].
  apply Forall_replicate, length_replicate.
Qed.

End Segmentation.

(** ** Compositing *)

Lemma same_shape_map_l {A B C} (g : A -> B) (a : list (list A))
    (b : list (list C)) :
  same_shape (map (map g) a) b = same_shape a b.
Proof.
  revert b. induction a as [|r a IH]; intros [|s b]; cbn; try reflexivity.
  now rewrite length_map, IH.
Qed.

Lemma select_row_fill {A} (c : A) (row : list A) (mrow : list Z) :
  select_row (zip_with (fun p m => if 0 <? m then c else p) row mrow) mrow
  = replicate (length (select_row row mrow)) c.
Proof.
  revert mrow. induction row as [|p row IH]; intros [|m mrow]; cbn;
    try reflexivity.
  destruct (0 <? m); cbn; now rewrite IH.
Qed.

Lemma select_fill {A} (c : A) (a : list (list A)) (mask : plane) :
  select (zip_with (zip_with (fun p m => if 0 <? m then c else p)) a mask) mask
  = replicate (length (select a mask)) c.
Proof.
  revert mask. induction a as [|r a IH]; intros [|m mask]; cbn;
    try reflexivity.
  now rewrite select_row_fill, IH, length_app, replicate_add.
Qed.

Lemma length_select_row_map {A B} (g : A -> B) (row : list A) (mrow : list Z) :
  length (select_row (map g row) mrow) = length (select_row row mrow).
Proof.
  revert mrow. induction row as [|p row IH]; intros [|m mrow]; cbn;
    try reflexivity.
  destruct (0 <? m); cbn; now rewrite IH.
Qed.

Lemma length_select_map {A B} (g : A -> B) (a : list (list A)) (mask : plane) :
  length (select (map (map g) a) mask) = length (select a mask).
Proof.
  revert mask. induction a as [|r a IH]; intros [|m mask]; cbn;
    try reflexivity.
  now rewrite !length_app, length_select_row_map, IH.
Qed.

Lemma zip_with_fill {A B C} (g : A -> B -> C) (l : list A) (c : B) :
  zip_with g l (replicate (length l) c) = map (fun p => g p c) l.
Proof. induction l as [|p l IH]; cbn; [reflexivity | now rewrite IH]. Qed.

Lemma scatter_row_map {A} (G : A -> A) (row : list A) (mrow : list Z)
    (rest : list A) :
  length row = length mrow ->
  scatter_row row mrow (map G (select_row row mrow) ++ rest)
  = (zip_with (fun p m => if 0 <? m then G p else p) row mrow, rest).
Proof.
  revert mrow. induction row as [|p row IH]; intros [|m mrow] Hl;
    try discriminate; [reflexivity|].
  cbn in Hl. cbn [scatter_row select_row zip_with].
  destruct (0 <? m); cbn [map app]; rewrite IH by lia; reflexivity.
Qed.

Lemma scatter_map {A} (G : A -> A) (a : list (list A)) (mask : plane)
    (rest : list A) :
  same_shape a mask = true ->
  scatter a mask (map G (select a mask) ++ rest)
  = zip_with (zip_with (fun p m => if 0 <? m then G p else p)) a mask.
Proof.
  revert mask rest. induction a as [|r a IH]; intros [|m mask] rest Hs;
    try discriminate; [reflexivity|].
  cbn in Hs. apply andb_true_iff in Hs as [Hl Hs]. apply Nat.eqb_eq in Hl.
  cbn [scatter select zip_with].
  rewrite map_app, <- app_assoc, scatter_row_map by assumption.
  now rewrite IH.
Qed.

Lemma overlay_of_shape (f : image) (mask : plane) (color : pixel) :
  same_shape f mask = true -> same_shape (overlay_of f mask color) mask = true.
Proof.
  intros Hs. unfold overlay_of, zeros_like.
  eapply same_shape_trans; [apply same_shape_zip_with|].
  - now rewrite same_shape_map_l.
  - now rewrite same_shape_map_l.
Qed.

Lemma composite_shape (f : image) (mask : plane) (color : pixel) (alpha : Q) :
  same_shape f mask = true -> same_shape (composite f mask color alpha) f = true.
Proof. intros Hs. unfold composite. now apply same_shape_zip_with. Qed.

(** The value handed to the final masked assignment. *)
Lemma blended_value (f : image) (mask : plane) (color : pixel) (alpha : Q) :
  same_shape f mask = true ->
  zip_with (add_weighted_pixel (1 - alpha)%Q alpha 0%Q)
    (select f mask) (select (overlay_of f mask color) mask)
  = map (fun p => add_weighted_pixel (1 - alpha)%Q alpha 0%Q p (cast_pixel color))
      (select f mask).
Proof.
  intros Hs. unfold overlay_of. rewrite select_fill.
  unfold zeros_like. rewrite length_select_map. apply zip_with_fill.
Qed.

Lemma fresh_not_in (h : heap) (l : loc) (a : image) :
  h !! l = Some a -> fresh (dom h) <> l.
Proof.
  intros Hl E. apply (is_fresh (dom h)). rewrite E.
  apply elem_of_dom. eauto.
Qed.

Lemma fresh_lookup (h : heap) : h !! fresh (dom h) = None.
Proof. apply not_elem_of_dom, is_fresh. Qed.

(** What [apply_color_overlay] does to the heap and what it returns. *)
Lemma apply_color_overlay_run (h : heap) (fl : loc) (f : image) (mask : plane)
    (color : pixel) (alpha : Q) :
  h !! fl = Some f ->
  let ov := fresh (dom h) in
  let h2 := <[ov := overlay_of f mask color]> (<[ov := zeros_like f]> h) in
  let r := fresh (dom h2) in
  let h3 := <[r := f]> h2 in
  apply_color_overlay fl mask color alpha h =
    if same_shape f mask then
      match select f mask with
      | [] => (Raise TypeError, h3)
      | _ :: _ => (Ok r, <[r := composite f mask color alpha]> h3)
      end
    else (Raise IndexError, <[ov := zeros_like f]> h).
Proof.
  intros Hf ov h2 r h3.
  assert (Hov : ov <> fl) by (eapply fresh_not_in; eassumption).
  assert (Hf2 : h2 !! fl = Some f).
  { unfold h2. now rewrite !lookup_insert_ne by assumption. }
  assert (Hr : r <> fl) by (eapply fresh_not_in; eassumption).
  assert (Hro : r <> ov).
  { eapply (fresh_not_in h2 ov). unfold h2. apply lookup_insert_eq. }
  unfold apply_color_overlay, bind, load, alloc, update, lift, ret.
  rewrite Hf. cbn [from_option id]. fold ov. rewrite lookup_insert_eq. cbn [from_option id].
  unfold setitem_mask_color. unfold zeros_like at 1. rewrite same_shape_map_l.
  destruct (same_shape f mask) eqn:Hs; [|reflexivity].
  fold (overlay_of f mask color). fold h2. rewrite Hf2. cbn [from_option id].
  fold r. fold h3.
  assert (Hf3 : h3 !! fl = Some f).
  { unfold h3. now rewrite lookup_insert_ne by assumption. }
  assert (Ho3 : h3 !! ov = Some (overlay_of f mask color)).
  { unfold h3, h2. rewrite lookup_insert_ne by assumption.
    apply lookup_insert_eq. }
  assert (Hr3 : h3 !! r = Some f) by (unfold h3; apply lookup_insert_eq).
  rewrite Hf3, Ho3, Hr3. cbn [from_option id]. unfold getitem_mask.
  rewrite Hs, (overlay_of_shape f mask color Hs).
  unfold addWeighted, setitem_mask. rewrite blended_value, Hs by assumption.
  destruct (select f mask) as [|p sel] eqn:Esel; [reflexivity|].
  cbn [map]. rewrite <- Esel.
  change (add_weighted_pixel (1 - alpha)%Q alpha 0%Q p (cast_pixel color)
          :: map (fun p => add_weighted_pixel (1 - alpha)%Q alpha 0%Q p
                             (cast_pixel color)) sel)
    with (map (fun p => add_weighted_pixel (1 - alpha)%Q alpha 0%Q p
                          (cast_pixel color)) (p :: sel)).
  rewrite <- Esel, length_map, Nat.eqb_refl.
  rewrite <- (app_nil_r (map _ (select f mask))), scatter_map by assumption.
  reflexivity.
Qed.

(** ** Rounding and the blend of one channel *)

Lemma nearest_iff (q : Q) (z : Z) :
  nearest q z <-> (inject_Z z - (1 # 2) <= q /\ q <= inject_Z z + (1 # 2))%Q.
Proof.
  unfold nearest. rewrite Qabs_Qle_condition. split; intros [H1 H2]; split; lra.
Qed.

Lemma cvRound_nearest (q : Q) : nearest q (cvRound q).
Proof.
  apply nearest_iff. unfold cvRound.
  pose proof (Qfloor_le q) as Hlo. pose proof (Qlt_floor q) as Hhi.
  rewrite inject_Z_plus in Hhi. change (inject_Z 1) with 1%Q in Hhi.
  destruct (Qcompare (q - inject_Z (Qfloor q)) (1 # 2)) eqn:E.
  - apply Qeq_alt in E.
    destruct (Z.even (Qfloor q)); rewrite ?inject_Z_plus;
      change (inject_Z 1) with 1%Q; split; lra.
  - apply Qlt_alt in E. split; lra.
  - apply Qgt_alt in E. rewrite inject_Z_plus.
    change (inject_Z 1) with 1%Q. split; lra.
Qed.



Lemma cvRound_comp (q q' : Q) : (q == q')%Q -> cvRound q = cvRound q'.
Proof.
  intros E. unfold cvRound. rewrite (Qfloor_comp _ _ E).
  assert (E' : (q - inject_Z (Qfloor q') == q' - inject_Z (Qfloor q'))%Q)
    by (rewrite E; reflexivity).
  now rewrite (Qcompare_comp _ _ E' _ _ (Qeq_refl (1 # 2))).
Qed.


Lemma add_weighted_blend (alpha : Q) (o c : Z) :
  add_weighted o (1 - alpha)%Q c alpha 0%Q
  = saturate_cast_uchar (cvRound (blend alpha o c)).
Proof.
  unfold add_weighted, blend. f_equal. apply cvRound_comp. ring.
Qed.

Lemma saturate_in_uint8 (v : Z) : in_uint8 (saturate_cast_uchar v).
Proof. unfold in_uint8, saturate_cast_uchar. lia. Qed.

Lemma saturate_id (v : Z) : in_uint8 v -> saturate_cast_uchar v = v.
Proof. unfold in_uint8, saturate_cast_uchar. lia. Qed.


Lemma cast_pixel_id (c : pixel) : pixel_in_range c -> cast_pixel c = c.
Proof.
  destruct c as [[b g] r]. unfold pixel_in_range, in_uint8, cast_pixel, cast_uint8.
  intros (Hb & Hg & Hr). now rewrite !Z.mod_small by lia.
Qed.

(** ** The compositor: [apply_color_overlay] *)



Lemma select_row_zeros {A} (row : list A) (w : nat) :
  select_row row (replicate w 0) = [].
Proof.
  revert w. induction row as [|x row IH]; intros [|w]; cbn; auto.
Qed.

Lemma select_zeros {A} (a : list (list A)) (h w : nat) :
  select a (zeros h w) = [].
Proof.
  unfold zeros. revert h. induction a as [|r a IH]; intros [|h]; cbn; auto.
  now rewrite select_row_zeros, IH.
Qed.


(** A frame that [apply_color_overlay] returns is the blended frame. *)
Lemma apply_color_overlay_returns (h : heap) (fl : loc) (f : image)
    (mask : plane) (color : pixel) (alpha : Q) (r : loc) (h' : heap) :
  h !! fl = Some f ->
  apply_color_overlay fl mask color alpha h = (Ok r, h') ->
  same_shape f mask = true
  /\ h' !! r = Some (composite f mask color alpha).
Proof.
  intros Hf Hrun.
  rewrite (apply_color_overlay_run h fl f mask color alpha Hf) in Hrun.
  cbv zeta in Hrun. destruct (same_shape f mask); [|discriminate].
  destruct (select f mask); [discriminate|].
  injection Hrun as <- <-. split; [reflexivity | apply lookup_insert_eq].
Qed.


(** C2. Whatever [apply_color_overlay] does (return or raise), every array
    that was in the heap before the call, the input frame among them, is
    unchanged after it. The array it returns is a new one, of the shape of
    the frame, and equal to the frame at every pixel where the mask is 0.
    With a mask of the frame's shape it returns when the mask selects a
    pixel; when the mask selects none it raises [TypeError] and there is no
    output. *)
Theorem unmasked_identity (h : heap) (fl : loc) (f : image) (mask : plane)
    (color : pixel) (alpha : Q) (res : result loc) (h' : heap) :
  h !! fl = Some f ->
  apply_color_overlay fl mask color alpha h = (res, h') ->
  h' !! fl = Some f
  /\ (forall l a, h !! l = Some a -> h' !! l = Some a)
  /\ (forall r, res = Ok r ->
        r <> fl /\ h !! r = None
        /\ exists out, h' !! r = Some out /\ same_shape out f = true
           /\ forall i j, at2 mask i j = Some 0 -> at2 out i j = at2 f i j)
  /\ (same_shape f mask = true ->
      (select f mask <> [] -> exists r, res = Ok r)
      /\ (select f mask = [] -> res = Raise TypeError)).
Proof.
  intros Hf Hrun.
  rewrite (apply_color_overlay_run h fl f mask color alpha Hf) in Hrun.
  cbv zeta in Hrun.
  set (ov := fresh (dom h)) in *.
  set (h2 := <[ov := overlay_of f mask color]> (<[ov := zeros_like f]> h)) in *.
  set (r0 := fresh (dom h2)) in *.
  assert (Hov : forall l a, h !! l = Some a -> ov <> l)
    by (intros l a; apply fresh_not_in).
  assert (H2 : forall l a, h !! l = Some a -> h2 !! l = Some a).
  { intros l a Hl. unfold h2. rewrite !lookup_insert_ne by (eapply Hov; eauto).
    exact Hl. }
  assert (Hr0 : forall l a, h !! l = Some a -> r0 <> l).
  { intros l a Hl. eapply fresh_not_in, H2, Hl. }
  assert (Hkeep : forall l a, h !! l = Some a -> h' !! l = Some a).
  { intros l a Hl. destruct (same_shape f mask).
    - destruct (select f mask); injection Hrun as _ <-;
        rewrite ?lookup_insert_ne by (eapply Hr0; eauto); eapply H2, Hl.
    - injection Hrun as _ <-.
      rewrite lookup_insert_ne by (eapply Hov; eauto). exact Hl. }
  split; [exact (Hkeep fl f Hf)|]. split; [exact Hkeep|]. split.
  - intros r ->. destruct (same_shape f mask) eqn:Hs; [|discriminate].
    destruct (select f mask) as [|x sel]; [discriminate|].
    injection Hrun as <- <-.
    split; [exact (Hr0 fl f Hf)|]. split.
    + destruct (h !! r0) as [a|] eqn:E; [|reflexivity].
      exfalso. exact (Hr0 r0 a E eq_refl).
    + exists (composite f mask color alpha).
      split; [apply lookup_insert_eq|].
      split; [now apply composite_shape|].
      intros i j Hm.
      destruct (at2_same_shape mask f i j 0 (same_shape_sym _ _ Hs) Hm)
        as [p Hp].
      unfold composite. rewrite (at2_zip_with _ _ _ _ _ _ _ Hp Hm), Hp.
      reflexivity.
  - intros Hs. rewrite Hs in Hrun.
    destruct (select f mask) as [|x sel]; injection Hrun as <- _;
      split; intros; eauto; congruence.
Qed.


Lemma unmasked_identity_witness :
  let h : heap := {[ 1%positive := grey_frame ]} in
  let run := apply_color_overlay 1%positive (zeros 2 2) (10, 20, 30)
               default_alpha h in
  snd run !! 1%positive = Some grey_frame
  /\ (forall l a, h !! l = Some a -> snd run !! l = Some a)
  /\ (forall r, fst run = Ok r ->
        r <> 1%positive /\ h !! r = None
        /\ exists out, snd run !! r = Some out
           /\ same_shape out grey_frame = true
           /\ forall i j, at2 (zeros 2 2) i j = Some 0 ->
                          at2 out i j = at2 grey_frame i j)
  /\ (same_shape grey_frame (zeros 2 2) = true ->
      (select grey_frame (zeros 2 2) <> [] -> exists r, fst run = Ok r)
      /\ (select grey_frame (zeros 2 2) = [] -> fst run = Raise TypeError)).
Proof.
  exact (unmasked_identity {[ 1%positive := grey_frame ]} 1%positive
           grey_frame (zeros 2 2) (10, 20, 30) default_alpha _ _
           (lookup_singleton_eq _ _) (surjective_pairing _)).
Defined.




(** ** The per-frame driver *)

Section Driver.

Variable gray_of : pixel -> Z.
Variable Canny : plane -> Z -> Z -> plane.
Variable findContours :
  plane -> RetrievalModes -> ContourApproximationModes ->
  list contour * hierarchy.
Variable drawContours : image -> list contour -> Z -> pixel -> Z -> image.

Hypothesis Canny_shape :
  forall src t1 t2, same_shape (Canny src t1 t2) src = true.
(** [cv2.drawContours] draws into the array it is given. *)
Hypothesis drawContours_shape :
  forall img cs idx color thickness,
    same_shape (drawContours img cs idx color thickness) img = true.
Hypothesis gray_black : gray_of (0, 0, 0) = 0.

(** What [process_frame] does to the heap and what it returns. *)
Lemma process_frame_run (self : ARColorize) (h : heap) (fl : loc) (f : image) :
  h !! fl = Some f ->
  let mask := detect_wall gray_of Canny f in
  let ov := fresh (dom h) in
  let h2 := <[ov := overlay_of f mask (selected_color self)]>
              (<[ov := zeros_like f]> h) in
  let r := fresh (dom h2) in
  let h3 := <[r := f]> h2 in
  let blended := composite f mask (selected_color self) default_alpha in
  process_frame gray_of Canny findContours drawContours self fl h =
    match select f mask with
    | [] => (Raise TypeError, h3)
    | _ :: _ =>
        (Ok r,
         <[r := drawContours blended
                  (fst (findContours mask RETR_EXTERNAL CHAIN_APPROX_SIMPLE))
                  (-1) (0, 255, 0) 2]>
           (<[r := blended]> h3))
    end.
Proof using Canny_shape.
  intros Hf mask ov h2 r h3 blended.
  unfold process_frame. unfold bind at 1. unfold load at 1.
  rewrite Hf. cbn [from_option id]. fold mask.
  unfold bind at 1.
  rewrite (apply_color_overlay_run h fl f mask _ default_alpha Hf).
  cbv zeta. fold ov. fold h2. fold r. fold h3. fold blended.
  assert (Hs : same_shape f mask = true).
  { apply same_shape_sym. apply detect_wall_shape. exact Canny_shape. }
  rewrite Hs. destruct (select f mask) as [|x sel]; [reflexivity|].
  destruct (findContours mask RETR_EXTERNAL CHAIN_APPROX_SIMPLE)
    as [contours hier].
  unfold bind, update, ret. rewrite lookup_insert_eq. reflexivity.
Qed.

(** C8. [detect_wall] returns a mask of the shape of the frame, and a frame
    returned by [apply_color_overlay] or by [process_frame] has the shape
    of the input frame. [process_frame] returns a frame exactly when the
    mask selects a pixel: when it selects none, no frame is returned, the
    call raises [TypeError]. *)
Theorem dimension_preservation (self : ARColorize) (h : heap) (fl : loc)
    (f : image) :
  h !! fl = Some f ->
  same_shape (detect_wall gray_of Canny f) f = true
  /\ (forall mask color alpha r h',
        apply_color_overlay fl mask color alpha h = (Ok r, h') ->
        exists out, h' !! r = Some out /\ same_shape out f = true)
  /\ (forall r h',
        process_frame gray_of Canny findContours drawContours self fl h
        = (Ok r, h') ->
        exists out, h' !! r = Some out /\ same_shape out f = true)
  /\ (select f (detect_wall gray_of Canny f) <> [] ->
        exists r h',
          process_frame gray_of Canny findContours drawContours self fl h
          = (Ok r, h'))
  /\ (select f (detect_wall gray_of Canny f) = [] ->
        exists h',
          process_frame gray_of Canny findContours drawContours self fl h
          = (Raise TypeError, h')).
Proof using Canny_shape drawContours_shape.
  intros Hf.
  assert (Hs : same_shape (detect_wall gray_of Canny f) f = true)
    by (apply detect_wall_shape; exact Canny_shape).
  split; [exact Hs|]. split; [|split; [|split]].
  - intros mask color alpha r h' Hrun.
    destruct (apply_color_overlay_returns h fl f mask color alpha r h' Hf Hrun)
      as [Hsm Hout].
    eexists. split; [exact Hout | now apply composite_shape].
  - intros r h' Hrun. rewrite (process_frame_run self h fl f Hf) in Hrun.
    cbv zeta in Hrun.
    destruct (select f (detect_wall gray_of Canny f)); [discriminate|].
    injection Hrun as <- <-. eexists. split; [apply lookup_insert_eq|].
    eapply same_shape_trans; [apply drawContours_shape|].
    apply composite_shape. now apply same_shape_sym.
  - intros Hne. rewrite (process_frame_run self h fl f Hf). cbv zeta.
    destruct (select f (detect_wall gray_of Canny f)); [congruence | eauto].
  - intros He. rewrite (process_frame_run self h fl f Hf). cbv zeta.
    rewrite He. eauto.
Qed.

(** C9. For the all-black 4 x 4 frame, [detect_wall] returns the all-zero
    mask; [process_frame] then raises [TypeError] and returns no frame
    (the input frame is left as it was). *)
Theorem process_frame_black (self : ARColorize) (h : heap) (fl : loc) :
  h !! fl = Some (black 4 4) ->
  detect_wall gray_of Canny (black 4 4) = zeros 4 4
  /\ exists h',
       process_frame gray_of Canny findContours drawContours self fl h
       = (Raise TypeError, h')
       /\ h' !! fl = Some (black 4 4).
Proof using Canny_shape gray_black.
  intros Hf.
  assert (Hd : detect_wall gray_of Canny (black 4 4) = zeros 4 4)
    by (apply detect_wall_black; assumption).
  split; [exact Hd|].
  rewrite (process_frame_run self h fl _ Hf). cbv zeta.
  rewrite Hd, select_zeros. eexists. split; [reflexivity|].
  assert (Hov : fresh (dom h) <> fl) by (eapply fresh_not_in; eassumption).
  match goal with
  | |- <[?r := _]> ?h2 !! fl = _ =>
      assert (H2 : h2 !! fl = Some (black 4 4))
        by (now rewrite !lookup_insert_ne by exact Hov);
      rewrite lookup_insert_ne by (eapply fresh_not_in; exact H2);
      exact H2
  end.
Qed.

End Driver.

(** ** The concrete instance meets the assumptions *)

Lemma gradient_edges_shape (src : plane) (t1 t2 : Z) :
  same_shape (gradient_edges src t1 t2) src = true.
Proof. unfold gradient_edges. apply (same_shape_imap (fun i j _ => _)). Qed.

Lemma gradient_edges_binary (src : plane) (t1 t2 : Z) :
  binary_plane (gradient_edges src t1 t2).
Proof.
  apply binary_plane_at2. intros i j x. unfold gradient_edges.
  rewrite (at2_imap (fun i j _ => _)).
  destruct (at2 src i j); [|discriminate]. cbn [fmap option_fmap option_map].
  intros [= <-]. unfold bin.
  match goal with |- context [if ?b then _ else _] => destruct b end; auto.
Qed.

Lemma paint_points_shape (img : image) (cs : list contour) (idx : Z)
    (color : pixel) (thickness : Z) :
  same_shape (paint_points img cs idx color thickness) img = true.
Proof. unfold paint_points. apply (same_shape_imap (fun i j p => _)). Qed.

Lemma gray_fixed_black : gray_fixed (0, 0, 0) = 0.
Proof. reflexivity. Qed.

Lemma edge_exclusion_witness :
  at2 (edges_dilated gray_fixed gradient_edges half_frame) 2 3 = Some 255
  /\ at2 (detect_wall gray_fixed gradient_edges half_frame) 2 3 = Some 0.
Proof.
  split; [vm_compute; reflexivity|].
  apply (edge_exclusion gray_fixed gradient_edges gradient_edges_shape
           gradient_edges_binary half_frame 2 3 255);
    [vm_compute; reflexivity | discriminate].
Defined.

Lemma detect_wall_binary_witness :
  binary_plane (detect_wall gray_fixed gradient_edges half_frame).
Proof.
  exact (detect_wall_binary gray_fixed gradient_edges gradient_edges_binary
           half_frame).
Defined.

(** C4, the claim as stated fails: for the all-black 4 x 4 frame the mask is
    all zero, so it holds one value and not two. (For an all-black frame
    this is so with any edge detector that keeps the size of its input, see
    [detect_wall_black].) *)
Lemma detect_wall_one_value :
  detect_wall gray_fixed gradient_edges (black 4 4) = zeros 4 4
  /\ ~ contains (detect_wall gray_fixed gradient_edges (black 4 4)) 255.
Proof.
  assert (E : detect_wall gray_fixed gradient_edges (black 4 4) = zeros 4 4)
    by (apply detect_wall_black;
        [exact gradient_edges_shape | exact gray_fixed_black]).
  split; [exact E|]. rewrite E. intros (i & j & H).
  apply at2_replicate in H. discriminate.
Qed.

Lemma dimension_preservation_witness :
  let h : heap := {[ 1%positive := black 4 4 ]} in
  let run := process_frame gray_fixed gradient_edges point_contours
               paint_points init 1%positive in
  same_shape (detect_wall gray_fixed gradient_edges (black 4 4)) (black 4 4)
  = true
  /\ (forall mask color alpha r h',
        apply_color_overlay 1%positive mask color alpha h = (Ok r, h') ->
        exists out, h' !! r = Some out /\ same_shape out (black 4 4) = true)
  /\ (forall r h', run h = (Ok r, h') ->
        exists out, h' !! r = Some out /\ same_shape out (black 4 4) = true)
  /\ (select (black 4 4) (detect_wall gray_fixed gradient_edges (black 4 4))
      <> [] -> exists r h', run h = (Ok r, h'))
  /\ (select (black 4 4) (detect_wall gray_fixed gradient_edges (black 4 4))
      = [] -> exists h', run h = (Raise TypeError, h')).
Proof.
  exact (dimension_preservation gray_fixed gradient_edges point_contours
           paint_points gradient_edges_shape paint_points_shape init
           {[ 1%positive := black 4 4 ]} 1%positive (black 4 4)
           (lookup_singleton_eq _ _)).
Defined.

Lemma process_frame_black_witness :
  detect_wall gray_fixed gradient_edges (black 4 4) = zeros 4 4
  /\ exists h',
       process_frame gray_fixed gradient_edges point_contours paint_points
         init 1%positive {[ 1%positive := black 4 4 ]}
       = (Raise TypeError, h')
       /\ h' !! 1%positive = Some (black 4 4).
Proof.
  exact (process_frame_black gray_fixed gradient_edges point_contours
           paint_points gradient_edges_shape gray_fixed_black init
           {[ 1%positive := black 4 4 ]} 1%positive
           (lookup_singleton_eq _ _)).
Defined.

(** * Further properties *)

(** ** Colour parsing *)

Lemma pair_value_ok_all :
  forallb (fun a => forallb (pair_value_ok a) hex_chars) hex_chars = true.
Proof. vm_compute. reflexivity. Qed.

Lemma pair_value_spec (a b : ascii) :
  is_hex_digit a = true -> is_hex_digit b = true ->
  int (String a (String b EmptyString)) 16 = Ok (16 * hex_value a + hex_value b)
  /\ int (String (upper_char a) (String (upper_char b) EmptyString)) 16
     = Ok (16 * hex_value a + hex_value b)
  /\ int (String "-"%char (String a EmptyString)) 16 = Ok (- hex_value a)
  /\ is_hex_digit (upper_char a) = true.
Proof.
  intros Ha Hb. apply is_hex_digit_in in Ha, Hb.
  pose proof pair_value_ok_all as H.
  rewrite forallb_forall in H. specialize (H a Ha).
  rewrite forallb_forall in H. specialize (H b Hb).
  unfold pair_value_ok in H.
  destruct (int (String a (String b EmptyString)) 16) as [v|]; [|discriminate].
  destruct (int (String (upper_char a) _) 16) as [u|]; [|discriminate].
  destruct (int (String "-"%char _) 16) as [w|]; [|discriminate].
  repeat (apply andb_true_iff in H as [H ?]).
  repeat match goal with
         | E : (_ =? _) = true |- _ => apply Z.eqb_eq in E
         end.
  subst. auto.
Qed.

Lemma hex_value_range (a : ascii) :
  is_hex_digit a = true -> 0 <= hex_value a < 16.
Proof.
  unfold is_hex_digit, hex_value. destruct (digit_value a) as [d|] eqn:E;
    [|discriminate].
  cbn [from_option id]. intros Hd. apply Z.ltb_lt in Hd. split; [|exact Hd].
  unfold digit_value in E. unfold code in E.
  repeat match type of E with
         | (if ?b then _ else _) = _ => destruct b eqn:?
         end; try discriminate; injection E as <-; lia.
Qed.

(** X1. On six hexadecimal digits RRGGBB, with or without a leading [#],
    [hex_to_bgr] returns the triple (B, G, R): the blue channel is read from
    the last pair of digits and the red channel from the first, each pair as
    16 * high digit + low digit. *)
Theorem hex_to_bgr_channels (a1 a2 a3 a4 a5 a6 : ascii) :
  Forall (fun c => is_hex_digit c = true) [a1; a2; a3; a4; a5; a6] ->
  let s := String a1 (String a2 (String a3 (String a4 (String a5
             (String a6 EmptyString))))) in
  let c := (16 * hex_value a5 + hex_value a6,
            16 * hex_value a3 + hex_value a4,
            16 * hex_value a1 + hex_value a2) in
  hex_to_bgr s = Ok c /\ hex_to_bgr (String "#"%char s) = Ok c
  /\ pixel_in_range c.
Proof.
  intros Hd s c.
  repeat match goal with
         | Hf : Forall _ (_ :: _) |- _ => inversion Hf; subst; clear Hf
         end.
  destruct (pair_value_spec a1 a2) as (Hr & _); try assumption.
  destruct (pair_value_spec a3 a4) as (Hg & _); try assumption.
  destruct (pair_value_spec a5 a6) as (Hb & _); try assumption.
  assert (E : hex_to_bgr s = Ok c).
  { unfold hex_to_bgr, s. cbn [lstrip]. rewrite (not_hash a1) by assumption.
    unfold slice. cbn [substring Nat.sub]. rewrite Hr, Hg, Hb. reflexivity. }
  split; [exact E|]. split.
  - unfold hex_to_bgr. cbn [lstrip]. change (Ascii.eqb "#" "#") with true.
    cbn iota. exact E.
  - unfold c, pixel_in_range, in_uint8.
    repeat match goal with
           | Hx : is_hex_digit _ = true |- _ => apply hex_value_range in Hx
           end.
    lia.
Qed.

Lemma hex_to_bgr_channels_witness :
  hex_to_bgr "FF7F50" = Ok (80, 127, 255)
  /\ hex_to_bgr "#FF7F50" = Ok (80, 127, 255)
  /\ pixel_in_range (80, 127, 255).
Proof.
  apply (hex_to_bgr_channels "F" "F" "7" "F" "5" "0").
  repeat constructor.
Defined.

Lemma hex_to_bgr_upper (s : string) :
  is_hex6 s = true -> hex_to_bgr s = hex_to_bgr (upper s).
Proof.
  intros H. destruct (hex6_chars s H) as (a1 & a2 & a3 & a4 & a5 & a6 & -> & Hd).
  repeat match goal with
         | Hf : Forall _ (_ :: _) |- _ => inversion Hf; subst; clear Hf
         end.
  destruct (pair_value_spec a1 a2) as (Hr & Ur & _ & U1); try assumption.
  destruct (pair_value_spec a3 a4) as (Hg & Ug & _); try assumption.
  destruct (pair_value_spec a5 a6) as (Hb & Ub & _); try assumption.
  unfold hex_to_bgr. cbn [upper lstrip].
  rewrite (not_hash a1), (not_hash (upper_char a1)) by assumption.
  unfold slice. cbn [substring Nat.sub].
  now rewrite Hr, Hg, Hb, Ur, Ug, Ub.
Qed.

(** X2. [hex_to_bgr] does not distinguish the case of letters: two strings of
    six hexadecimal digits that differ only in case give the same triple. *)
Theorem hex_to_bgr_nocase (s t : string) :
  is_hex6 s = true -> is_hex6 t = true -> eq_nocase s t ->
  hex_to_bgr s = hex_to_bgr t.
Proof.
  intros Hs Ht E. unfold eq_nocase in E.
  now rewrite (hex_to_bgr_upper s Hs), (hex_to_bgr_upper t Ht), E.
Qed.

Lemma hex_to_bgr_nocase_witness : hex_to_bgr "e6e6fa" = hex_to_bgr "E6e6Fa".
Proof. apply hex_to_bgr_nocase; reflexivity. Defined.

Lemma substring_short (t : string) (n m : nat) :
  (String.length t <= n)%nat -> substring n m t = EmptyString.
Proof.
  revert n. induction t as [|c t IH]; intros n Hl.
  - destruct n, m; reflexivity.
  - destruct n as [|n]; cbn in Hl; [lia|]. cbn [substring]. apply IH. lia.
Qed.

(** X3. An argument with fewer than five characters after its leading [#]
    characters (the empty string and a lone [#] among them) is rejected:
    [hex_to_bgr] raises [ValueError], and [set_color] leaves the selected
    colour as it was. *)
Theorem hex_to_bgr_short (s : string) (self : ARColorize) :
  (String.length (lstrip "#"%char s) <= 4)%nat ->
  hex_to_bgr s = Raise ValueError
  /\ set_color s self = (Raise ValueError, self).
Proof.
  intros Hl.
  assert (E : hex_to_bgr s = Raise ValueError).
  { destruct (hex_to_bgr s) as [c|e] eqn:Eh.
    - exfalso. unfold hex_to_bgr in Eh.
      unfold slice at 3 in Eh. cbn [Nat.sub] in Eh.
      rewrite (substring_short _ 4 2 Hl) in Eh.
      destruct (int (slice _ 0 2) 16); [|discriminate]. cbn [rbind] in Eh.
      destruct (int (slice _ 2 4) 16); [|discriminate]. cbn [rbind] in Eh.
      change (int EmptyString 16) with (@Raise Z ValueError) in Eh.
      discriminate.
    - f_equal. exact (hex_to_bgr_raises _ _ Eh). }
  split; [exact E|]. now rewrite set_color_run, E.
Qed.

Lemma hex_to_bgr_short_witness :
  hex_to_bgr "#FFF" = Raise ValueError
  /\ set_color "#FFF" init = (Raise ValueError, init).
Proof. apply hex_to_bgr_short. cbn. lia. Defined.

(** X4. [hex_to_bgr] accepts a minus sign in front of a digit: on the six
    characters [-a-b-c], with a, b, c hexadecimal digits, it returns the
    triple of the negated digits, so [set_color] can select channels below 0
    (outside 0..255). *)
Theorem hex_to_bgr_signed (a b c : ascii) :
  is_hex_digit a = true -> is_hex_digit b = true -> is_hex_digit c = true ->
  hex_to_bgr (String "-"%char (String a (String "-"%char (String b
                (String "-"%char (String c EmptyString))))))
  = Ok (- hex_value c, - hex_value b, - hex_value a)
  /\ (0 < hex_value a ->
      ~ pixel_in_range (- hex_value c, - hex_value b, - hex_value a)).
Proof.
  intros Ha Hb Hc.
  destruct (pair_value_spec a a) as (_ & _ & Sa & _); try assumption.
  destruct (pair_value_spec b b) as (_ & _ & Sb & _); try assumption.
  destruct (pair_value_spec c c) as (_ & _ & Sc & _); try assumption.
  split.
  - unfold hex_to_bgr. cbn [lstrip].
    change (Ascii.eqb "-" "#") with false. cbn iota.
    unfold slice. cbn [substring Nat.sub]. now rewrite Sa, Sb, Sc.
  - intros Hpos (_ & _ & Hr). unfold in_uint8 in Hr. lia.
Qed.

Lemma hex_to_bgr_signed_witness :
  hex_to_bgr "-1-2-3" = Ok (-3, -2, -1)
  /\ (0 < hex_value "1" -> ~ pixel_in_range (-3, -2, -1)).
Proof. apply (hex_to_bgr_signed "1" "2" "3"); reflexivity. Defined.

(** X5. Selecting a colour twice is the same as selecting it once (also when
    the argument is rejected), a later accepted call overwrites whatever an
    earlier call selected, and [set_color] never changes [running]. *)
Theorem set_color_idempotent (s1 s2 : string) (self : ARColorize) :
  set_color s1 (snd (set_color s1 self)) = set_color s1 self
  /\ running (snd (set_color s1 self)) = running self
  /\ (forall c, hex_to_bgr s2 = Ok c ->
        set_color s2 (snd (set_color s1 self)) = set_color s2 self
        /\ selected_color (snd (set_color s2 self)) = c).
Proof.
  assert (Hrun : forall s st, set_color s st =
            match hex_to_bgr s with
            | Ok c => (Ok tt, set_selected_color c st)
            | Raise e => (Raise e, st)
            end) by exact set_color_run.
  split; [|split].
  - rewrite !Hrun. destruct (hex_to_bgr s1); reflexivity.
  - rewrite Hrun. destruct (hex_to_bgr s1); reflexivity.
  - intros c Hc. rewrite !Hrun, Hc. cbn [snd].
    split; [|reflexivity]. destruct (hex_to_bgr s1); reflexivity.
Qed.

(** ** Segmentation *)

Lemma foldr_const (op : Z -> Z -> Z) (unit c : Z) (l : list Z) :
  op c c = c -> op c unit = c -> l <> [] -> (forall x, x ∈ l -> x = c) ->
  foldr op unit l = c.
Proof.
  intros Hcc Hcu. induction l as [|x l IH]; intros Hne Hl; [congruence|].
  cbn. rewrite (Hl x) by left.
  destruct l as [|y l]; [exact Hcu|].
  rewrite IH; [exact Hcc | discriminate | intros z Hz; apply Hl; now right].
Qed.

(** A morphological pass keeps an array whose elements all equal [c]. *)
Lemma morph_const (op : Z -> Z -> Z) (unit c : Z) (kernel src : plane) :
  op c c = c -> op c unit = c -> (0, 0) ∈ kernel_offsets kernel ->
  (forall i j x, at2 src i j = Some x -> x = c) ->
  forall i j x, at2 (morph op unit kernel src) i j = Some x -> x = c.
Proof.
  intros Hcc Hcu Hk Hsrc i j x. unfold morph.
  rewrite (at2_imap (fun i j _ => _)).
  destruct (at2 src i j) as [y|] eqn:E; [|discriminate].
  cbn [fmap option_fmap option_map]. intros [= <-].
  apply foldr_const; try assumption.
  - intros Hn. pose proof (neighbourhood_centre _ kernel _ _ _ Hk E) as Hin.
    rewrite Hn in Hin. inversion Hin.
  - intros z Hz. apply neighbourhood_elem in Hz as (i' & j' & Hz).
    eapply Hsrc; eassumption.
Qed.

Lemma morphologyEx_const (c : Z) (op : MorphTypes) (src : plane) :
  0 <= c <= 255 ->
  (forall i j x, at2 src i j = Some x -> x = c) ->
  forall i j x, at2 (morphologyEx src op (ones 5 5)) i j = Some x -> x = c.
Proof.
  intros Hc Hsrc.
  assert (Hd : forall s, (forall i j x, at2 s i j = Some x -> x = c) ->
             forall i j x, at2 (morph Z.max 0 (ones 5 5) s) i j = Some x -> x = c)
    by (intros s Hs; apply morph_const; auto using centre_in_ones_5_5; lia).
  assert (He : forall s, (forall i j x, at2 s i j = Some x -> x = c) ->
             forall i j x, at2 (morph Z.min 255 (ones 5 5) s) i j = Some x -> x = c)
    by (intros s Hs; apply morph_const; auto using centre_in_ones_5_5; lia).
  destruct op; unfold morphologyEx, dilate, erode; cbv [Nat.iter nat_rect].
  - apply Hd, He, Hsrc.
  - apply He, Hd, Hsrc.
Qed.

Lemma foldr_max_ge (l : list Z) (x : Z) : x ∈ l -> x <= foldr Z.max 0 l.
Proof.
  induction l as [|y l IH]; intros Hin; [inversion Hin|].
  cbn. apply elem_of_cons in Hin as [-> | Hin]; [lia|].
  specialize (IH Hin). lia.
Qed.

Lemma offsets_ones_5_5 (di dj : Z) :
  -2 <= di <= 2 -> -2 <= dj <= 2 -> (di, dj) ∈ kernel_offsets (ones 5 5).
Proof.
  intros Hi Hj. apply list_elem_of_In.
  assert (Ei : di = -2 \/ di = -1 \/ di = 0 \/ di = 1 \/ di = 2) by lia.
  assert (Ej : dj = -2 \/ dj = -1 \/ dj = 0 \/ dj = 1 \/ dj = 2) by lia.
  destruct Ei as [-> | [-> | [-> | [-> | ->]]]];
    destruct Ej as [-> | [-> | [-> | [-> | ->]]]];
    vm_compute; tauto.
Qed.

Section SegmentationFurther.

Variable gray_of : pixel -> Z.
Variable Canny : plane -> Z -> Z -> plane.

Hypothesis Canny_shape :
  forall src t1 t2, same_shape (Canny src t1 t2) src = true.
Hypothesis Canny_binary :
  forall src t1 t2, binary_plane (Canny src t1 t2).

(** The mask element by element. *)
Lemma detect_wall_at (frame : image) (i j : nat) (b e : Z) :
  at2 (brightness_mask gray_of frame) i j = Some b ->
  at2 (edges_dilated gray_of Canny frame) i j = Some e ->
  at2 (detect_wall gray_of Canny frame) i j
  = Some (Z.land b (Z.land (Z.lnot e) 255)).
Proof.
  intros Hb He. rewrite detect_wall_unfold. unfold bitwise_and.
  apply at2_zip_with; [exact Hb|].
  unfold bitwise_not. now rewrite at2_map, He.
Qed.

Lemma frame_positions (frame : image) (i j : nat) (p : pixel) :
  at2 frame i j = Some p ->
  exists b e, at2 (brightness_mask gray_of frame) i j = Some b
              /\ at2 (edges_dilated gray_of Canny frame) i j = Some e.
Proof using Canny_shape.
  intros Hp.
  destruct (at2_same_shape frame (brightness_mask gray_of frame) i j p)
    as [b Hb]; [apply same_shape_sym, brightness_mask_shape | exact Hp |].
  destruct (at2_same_shape frame (edges_dilated gray_of Canny frame) i j p)
    as [e He];
    [apply same_shape_sym, edges_dilated_shape, Canny_shape | exact Hp |].
  eauto.
Qed.

(** X6. The mask returned by [detect_wall] has one element for every pixel of
    the frame and none besides (the height and the width of the frame). *)
Theorem detect_wall_same_shape (frame : image) :
  same_shape (detect_wall gray_of Canny frame) frame = true
  /\ forall i j, is_Some (at2 (detect_wall gray_of Canny frame) i j)
                 <-> is_Some (at2 frame i j).
Proof using Canny_shape.
  assert (Hs : same_shape (detect_wall gray_of Canny frame) frame = true)
    by (apply detect_wall_shape, Canny_shape).
  split; [exact Hs|]. intros i j. split; intros [x Hx].
  - destruct (at2_same_shape _ frame i j x Hs Hx) as [y Hy]. now exists y.
  - destruct (at2_same_shape frame _ i j x (same_shape_sym _ _ Hs) Hx)
      as [y Hy]. now exists y.
Qed.

(** X7. A frame in which no pixel is brighter than the threshold (grey value
    at most 100) gives a mask that is 0 everywhere, whatever the edge
    detector returns. *)
Theorem detect_wall_dark (frame : image) :
  (forall i j p, at2 frame i j = Some p -> gray_of p <= 100) ->
  forall i j v, at2 (detect_wall gray_of Canny frame) i j = Some v -> v = 0.
Proof using Type.
  intros Hdark i j v Hv. rewrite detect_wall_unfold in Hv.
  apply at2_bitwise_and in Hv as (b & y & Hb & _ & ->).
  assert (b = 0) as ->; [|apply Z.land_0_l].
  rewrite brightness_mask_unfold in Hb. revert i j b Hb.
  apply morphologyEx_const; [lia|]. apply morphologyEx_const; [lia|].
  intros i j x. cbn [snd threshold]. rewrite at2_map.
  unfold cvtColor_BGR2GRAY. rewrite at2_map.
  destruct (at2 frame i j) as [p|] eqn:E; [|discriminate].
  cbn [fmap option_fmap option_map]. intros [= <-].
  specialize (Hdark i j p E).
  destruct (100 <? gray_of p) eqn:Hlt; [apply Z.ltb_lt in Hlt; lia | reflexivity].
Qed.

(** X8. A frame in which every pixel is brighter than the threshold and in
    which the edge detector finds no edge gives a mask that is 255 at every
    pixel of the frame. *)
Theorem detect_wall_bright (frame : image) :
  (forall i j p, at2 frame i j = Some p -> 100 < gray_of p) ->
  (forall i j e,
     at2 (Canny (cvtColor_BGR2GRAY gray_of frame) 50 150) i j = Some e ->
     e = 0) ->
  forall i j p, at2 frame i j = Some p ->
    at2 (detect_wall gray_of Canny frame) i j = Some 255.
Proof using Canny_shape.
  intros Hbright Hedges.
  assert (HB : forall i j b,
             at2 (brightness_mask gray_of frame) i j = Some b -> b = 255).
  { rewrite brightness_mask_unfold.
    apply morphologyEx_const; [lia|]. apply morphologyEx_const; [lia|].
    intros i j x. cbn [snd threshold]. rewrite at2_map.
    unfold cvtColor_BGR2GRAY. rewrite at2_map.
    destruct (at2 frame i j) as [q|] eqn:E; [|discriminate].
    cbn [fmap option_fmap option_map]. intros [= <-].
    specialize (Hbright i j q E). apply Z.ltb_lt in Hbright.
    now rewrite Hbright. }
  assert (HE : forall i j e,
             at2 (edges_dilated gray_of Canny frame) i j = Some e -> e = 0).
  { unfold edges_dilated, dilate. cbv [Nat.iter nat_rect].
    apply morph_const; auto using centre_in_ones_5_5. }
  intros i j p Hp.
  destruct (frame_positions frame i j p Hp) as (b & e & Hb & He).
  rewrite (detect_wall_at frame i j b e Hb He).
  rewrite (HB i j b Hb), (HE i j e He). reflexivity.
Qed.

(** X9. Element by element the mask is the brightness mask with the dilated
    edges removed: it is 255 exactly where the cleaned brightness mask is 255
    and the dilated edge map is 0, and 0 at every other pixel. *)
Theorem detect_wall_pointwise (frame : image) (i j : nat) (p : pixel) :
  at2 frame i j = Some p ->
  exists b e,
    at2 (brightness_mask gray_of frame) i j = Some b
    /\ at2 (edges_dilated gray_of Canny frame) i j = Some e
    /\ at2 (detect_wall gray_of Canny frame) i j
       = Some (if (b =? 255) && (e =? 0) then 255 else 0).
Proof using Canny_shape Canny_binary.
  intros Hp. destruct (frame_positions frame i j p Hp) as (b & e & Hb & He).
  exists b, e. split; [exact Hb|]. split; [exact He|].
  rewrite (detect_wall_at frame i j b e Hb He). f_equal.
  pose proof (brightness_mask_binary gray_of frame) as Bb.
  pose proof (edges_dilated_binary gray_of Canny Canny_binary frame) as Be.
  rewrite binary_plane_at2 in Bb, Be.
  destruct (Bb i j b Hb) as [-> | ->]; destruct (Be i j e He) as [-> | ->];
    reflexivity.
Qed.

(** X10. The margin around edges: a pixel of the frame that lies within two
    rows and two columns of a pixel where the edge detector reports an edge
    is 0 in the mask. *)
Theorem detect_wall_margin (frame : image) (i j i' j' : nat) (p : pixel)
    (e : Z) :
  at2 frame i j = Some p ->
  at2 (Canny (cvtColor_BGR2GRAY gray_of frame) 50 150) i' j' = Some e ->
  e <> 0 ->
  Z.abs (Z.of_nat i' - Z.of_nat i) <= 2 ->
  Z.abs (Z.of_nat j' - Z.of_nat j) <= 2 ->
  at2 (detect_wall gray_of Canny frame) i j = Some 0.
Proof using Canny_shape Canny_binary.
  intros Hp He Hne Hi Hj.
  destruct (frame_positions frame i j p Hp) as (b & d & Hb & Hd).
  rewrite (detect_wall_at frame i j b d Hb Hd). f_equal.
  assert (d = 255) as ->; [|change (Z.land (Z.lnot 255) 255) with 0;
                            apply Z.land_0_r].
  assert (e = 255) as ->.
  { pose proof (Canny_binary (cvtColor_BGR2GRAY gray_of frame) 50 150) as B.
    rewrite binary_plane_at2 in B. destruct (B i' j' e He); congruence. }
  pose proof (edges_dilated_binary gray_of Canny Canny_binary frame) as Bd.
  rewrite binary_plane_at2 in Bd.
  destruct (Bd i j d Hd) as [-> | ->]; [exfalso | reflexivity].
  unfold edges_dilated, dilate in Hd. cbv [Nat.iter nat_rect] in Hd.
  unfold morph in Hd. rewrite (at2_imap (fun i j _ => _)) in Hd.
  destruct (at2 (Canny _ 50 150) i j); [|discriminate].
  cbn [fmap option_fmap option_map] in Hd. injection Hd as Hd.
  assert (Hin : 255 ∈ neighbourhood
                  (Canny (cvtColor_BGR2GRAY gray_of frame) 50 150)
                  (ones 5 5) i j).
  { unfold neighbourhood. rewrite list_elem_of_omap.
    exists (Z.of_nat i' - Z.of_nat i, Z.of_nat j' - Z.of_nat j).
    split; [apply offsets_ones_5_5; lia|].
    unfold at_offset. cbn [fst snd].
    replace (Z.of_nat i + (Z.of_nat i' - Z.of_nat i)) with (Z.of_nat i') by lia.
    replace (Z.of_nat j + (Z.of_nat j' - Z.of_nat j)) with (Z.of_nat j') by lia.
    rewrite !Nat2Z.id.
    replace ((0 <=? Z.of_nat i') && (0 <=? Z.of_nat j')) with true;
      [exact He|].
    symmetry. apply andb_true_iff. split; apply Z.leb_le; lia. }
  apply foldr_max_ge in Hin. lia.
Qed.

End SegmentationFurther.

Lemma detect_wall_same_shape_witness :
  same_shape (detect_wall gray_fixed gradient_edges half_frame) half_frame
  = true
  /\ forall i j,
       is_Some (at2 (detect_wall gray_fixed gradient_edges half_frame) i j)
       <-> is_Some (at2 half_frame i j).
Proof.
  exact (detect_wall_same_shape gray_fixed gradient_edges gradient_edges_shape
           half_frame).
Defined.

Lemma detect_wall_dark_witness :
  Forall (Forall (fun v => v = 0))
    (detect_wall gray_fixed gradient_edges (black 3 5)).
Proof.
  apply Forall2d_at2.
  apply (detect_wall_dark gray_fixed gradient_edges (black 3 5)).
  intros i j p Hp. apply at2_replicate in Hp. subst p. vm_compute. discriminate.
Defined.

Lemma detect_wall_bright_witness :
  at2 (detect_wall gray_fixed gradient_edges (white 3 3)) 1 2 = Some 255.
Proof.
  apply (detect_wall_bright gray_fixed gradient_edges gradient_edges_shape
           (white 3 3)) with (p := (255, 255, 255)).
  - intros i j p Hp. apply at2_replicate in Hp. subst p. vm_compute. reflexivity.
  - intros i j e.
    change (gradient_edges (cvtColor_BGR2GRAY gray_fixed (white 3 3)) 50 150)
      with (zeros 3 3).
    apply at2_replicate.
  - reflexivity.
Defined.

Lemma detect_wall_pointwise_witness :
  exists b e,
    at2 (brightness_mask gray_fixed half_frame) 2 7 = Some b
    /\ at2 (edges_dilated gray_fixed gradient_edges half_frame) 2 7 = Some e
    /\ at2 (detect_wall gray_fixed gradient_edges half_frame) 2 7
       = Some (if (b =? 255) && (e =? 0) then 255 else 0).
Proof.
  apply (detect_wall_pointwise gray_fixed gradient_edges gradient_edges_shape
           gradient_edges_binary half_frame 2 7 (255, 255, 255)).
  reflexivity.
Defined.

Lemma detect_wall_margin_witness :
  at2 (gradient_edges (cvtColor_BGR2GRAY gray_fixed half_frame) 50 150) 3 4
  = Some 255
  /\ at2 (detect_wall gray_fixed gradient_edges half_frame) 1 6 = Some 0.
Proof.
  split; [vm_compute; reflexivity|].
  apply (detect_wall_margin gray_fixed gradient_edges gradient_edges_shape
           gradient_edges_binary half_frame 1 6 3 4 (255, 255, 255) 255);
    [reflexivity | vm_compute; reflexivity | discriminate | cbn; lia | cbn; lia].
Defined.

(** ** Compositing *)

Lemma nearest_integer (o z : Z) : nearest (inject_Z o) z -> z = o.
Proof.
  rewrite nearest_iff. intros [A1 A2].
  assert (H1 : (inject_Z z < inject_Z (o + 1))%Q).
  { rewrite inject_Z_plus. change (inject_Z 1) with 1%Q. lra. }
  assert (H2 : (inject_Z o < inject_Z (z + 1))%Q).
  { rewrite inject_Z_plus. change (inject_Z 1) with 1%Q. lra. }
  rewrite <- Zlt_Qlt in H1, H2. lia.
Qed.

Lemma cvRound_inject_Z (o : Z) : cvRound (inject_Z o) = o.
Proof. apply nearest_integer, cvRound_nearest. Qed.

Lemma add_weighted_zero (o c : Z) :
  in_uint8 o -> add_weighted o (1 - 0)%Q c 0%Q 0%Q = o.
Proof.
  intros Ho. rewrite add_weighted_blend.
  rewrite (cvRound_comp _ (inject_Z o)) by (unfold blend; ring).
  rewrite cvRound_inject_Z. now apply saturate_id.
Qed.

Lemma add_weighted_one (o c : Z) :
  in_uint8 c -> add_weighted o (1 - 1)%Q c 1%Q 0%Q = c.
Proof.
  intros Hc. rewrite add_weighted_blend.
  rewrite (cvRound_comp _ (inject_Z c)) by (unfold blend; ring).
  rewrite cvRound_inject_Z. now apply saturate_id.
Qed.

(** X11. The two ends of the blend. With [alpha = 0] the frame returned is
    an exact copy of the input frame; with [alpha = 1] every selected pixel
    of the frame returned is the colour itself. (Frame and colour 8-bit, the
    mask of the frame's shape and selecting a pixel.) *)
Theorem blend_endpoints (h : heap) (fl : loc) (f : image) (mask : plane)
    (color : pixel) :
  h !! fl = Some f -> valid_image f -> pixel_in_range color ->
  same_shape f mask = true -> select f mask <> [] ->
  (exists r h', apply_color_overlay fl mask color 0%Q h = (Ok r, h')
                /\ r <> fl /\ h' !! r = Some f)
  /\ (exists r h' out,
        apply_color_overlay fl mask color 1%Q h = (Ok r, h')
        /\ h' !! r = Some out
        /\ forall i j m, at2 mask i j = Some m -> 0 < m ->
                         at2 out i j = Some color).
Proof.
  intros Hf Hv Hc Hs Hne.
  pose proof (apply_color_overlay_run h fl f mask color 0%Q Hf) as R0.
  pose proof (apply_color_overlay_run h fl f mask color 1%Q Hf) as R1.
  cbv zeta in R0, R1. rewrite Hs in R0, R1.
  destruct (select f mask) as [|x sel]; [congruence|].
  split.
  - do 2 eexists. split; [exact R0|]. split.
    + eapply fresh_not_in. rewrite !lookup_insert_ne; [exact Hf | |];
        eapply fresh_not_in; exact Hf.
    + rewrite lookup_insert_eq. f_equal.
      apply at2_ext; [now apply composite_shape|].
      intros i j. destruct (at2 f i j) as [p|] eqn:Hp.
      * destruct (at2_same_shape f mask i j p Hs Hp) as [m Hm].
        unfold composite. rewrite (at2_zip_with _ _ _ _ _ _ _ Hp Hm).
        destruct (0 <? m); [|reflexivity].
        assert (Hpr : pixel_in_range p).
        { unfold valid_image in Hv. rewrite Forall2d_at2 in Hv.
          eapply Hv; eassumption. }
        destruct p as [[pb pg] pr]. destruct color as [[cb cg] cr].
        destruct Hpr as (Hb & Hg & Hr). unfold add_weighted_pixel.
        rewrite (cast_pixel_id (cb, cg, cr) Hc).
        now rewrite !add_weighted_zero.
      * destruct (at2 (composite f mask color 0) i j) as [q|] eqn:Hq;
          [|reflexivity].
        destruct (at2_same_shape _ f i j q (composite_shape f mask color 0 Hs) Hq)
          as [p Hp']. congruence.
  - do 3 eexists. split; [exact R1|]. split; [apply lookup_insert_eq|].
    intros i j m Hm Hpos.
    destruct (at2_same_shape mask f i j m (same_shape_sym _ _ Hs) Hm)
      as [p Hp].
    unfold composite. rewrite (at2_zip_with _ _ _ _ _ _ _ Hp Hm).
    apply Z.ltb_lt in Hpos. rewrite Hpos. f_equal.
    rewrite (cast_pixel_id color Hc).
    destruct p as [[pb pg] pr]. destruct color as [[cb cg] cr].
    destruct Hc as (Hb & Hg & Hr). unfold add_weighted_pixel.
    now rewrite !add_weighted_one.
Qed.

Lemma blend_endpoints_witness :
  let h : heap := {[ 1%positive := grey_frame ]} in
  (exists r h',
     apply_color_overlay 1%positive diagonal_mask (10, 20, 30) 0%Q h
     = (Ok r, h') /\ r <> 1%positive /\ h' !! r = Some grey_frame)
  /\ (exists r h' out,
        apply_color_overlay 1%positive diagonal_mask (10, 20, 30) 1%Q h
        = (Ok r, h')
        /\ h' !! r = Some out
        /\ forall i j m, at2 diagonal_mask i j = Some m -> 0 < m ->
                         at2 out i j = Some (10, 20, 30)).
Proof.
  apply (blend_endpoints _ 1%positive grey_frame diagonal_mask (10, 20, 30)).
  - apply lookup_singleton_eq.
  - repeat constructor; cbn; lia.
  - repeat constructor; cbn; lia.
  - reflexivity.
  - discriminate.
Defined.





(** X13. A mask whose shape differs from the frame's makes
    [apply_color_overlay] raise [IndexError]: no frame is returned and every
    array that existed before the call, the input frame among them, is
    unchanged. *)
Theorem mask_shape_mismatch (h : heap) (fl : loc) (f : image) (mask : plane)
    (color : pixel) (alpha : Q) :
  h !! fl = Some f -> same_shape f mask = false ->
  fst (apply_color_overlay fl mask color alpha h) = Raise IndexError
  /\ forall l a, h !! l = Some a ->
       snd (apply_color_overlay fl mask color alpha h) !! l = Some a.
Proof.
  intros Hf Hs.
  rewrite (apply_color_overlay_run h fl f mask color alpha Hf). cbv zeta.
  rewrite Hs. cbn [fst snd]. split; [reflexivity|].
  intros l a Hl. rewrite lookup_insert_ne; [exact Hl|].
  eapply fresh_not_in; exact Hl.
Qed.

Lemma mask_shape_mismatch_witness :
  fst (apply_color_overlay 1%positive (zeros 2 3) (10, 20, 30) default_alpha
         {[ 1%positive := grey_frame ]}) = Raise IndexError
  /\ forall l a, ({[ 1%positive := grey_frame ]} : heap) !! l = Some a ->
       snd (apply_color_overlay 1%positive (zeros 2 3) (10, 20, 30)
              default_alpha {[ 1%positive := grey_frame ]}) !! l = Some a.
Proof.
  apply (mask_shape_mismatch _ 1%positive grey_frame (zeros 2 3));
    [apply lookup_singleton_eq | reflexivity].
Defined.

(** ** The per-frame driver and the camera session *)

Section SessionProperties.

Variable gray_of : pixel -> Z.
Variable Canny : plane -> Z -> Z -> plane.
Variable findContours :
  plane -> RetrievalModes -> ContourApproximationModes ->
  list contour * hierarchy.
Variable drawContours : image -> list contour -> Z -> pixel -> Z -> image.

Hypothesis Canny_shape :
  forall src t1 t2, same_shape (Canny src t1 t2) src = true.

Local Abbreviation loop :=
  (camera_loop gray_of Canny findContours drawContours).
Local Abbreviation start :=
  (start_camera gray_of Canny findContours drawContours).

(** X14. [process_frame] never changes an array that existed before the
    call (the input frame among them), whether it returns or raises; the
    frame it returns is a new array. *)
Theorem process_frame_preserves (self : ARColorize) (h : heap) (fl : loc)
    (f : image) (res : result loc) (h' : heap) :
  h !! fl = Some f ->
  process_frame gray_of Canny findContours drawContours self fl h = (res, h') ->
  (forall l a, h !! l = Some a -> h' !! l = Some a)
  /\ (forall r, res = Ok r ->
        r <> fl /\ h !! r = None /\ exists out, h' !! r = Some out).
Proof using Canny_shape.
  intros Hf Hrun.
  rewrite (process_frame_run gray_of Canny findContours drawContours
             Canny_shape self h fl f Hf) in Hrun.
  cbv zeta in Hrun.
  set (mask := detect_wall gray_of Canny f) in *.
  set (ov := fresh (dom h)) in *.
  set (h2 := <[ov := overlay_of f mask (selected_color self)]>
               (<[ov := zeros_like f]> h)) in *.
  set (r0 := fresh (dom h2)) in *.
  assert (Hov : forall l a, h !! l = Some a -> ov <> l)
    by (intros l a; apply fresh_not_in).
  assert (H2 : forall l a, h !! l = Some a -> h2 !! l = Some a).
  { intros l a Hl. unfold h2. rewrite !lookup_insert_ne by (eapply Hov; eauto).
    exact Hl. }
  assert (Hr0 : forall l a, h !! l = Some a -> r0 <> l).
  { intros l a Hl. eapply fresh_not_in, H2, Hl. }
  split.
  - intros l a Hl. destruct (select f mask); injection Hrun as _ <-;
      rewrite ?lookup_insert_ne by (eapply Hr0; eauto); eapply H2, Hl.
  - intros r ->. destruct (select f mask); [discriminate|].
    injection Hrun as <- <-. split; [exact (Hr0 fl f Hf)|]. split.
    + destruct (h !! r0) as [a|] eqn:E; [|reflexivity].
      exfalso. exact (Hr0 r0 a E eq_refl).
    + eexists. apply lookup_insert_eq.
Qed.

Lemma camera_loop_running (frames : list image) (st : session) :
  running (ar_colorize (snd (loop frames st))) = running (ar_colorize st).
Proof.
  revert st. induction frames as [|frame rest IH]; intros st; [reflexivity|].
  cbn [camera_loop].
  destruct (process_frame _ _ _ _ _ _ _) as [[r|e] h']; [|reflexivity].
  destruct (hstack frame _) as [combined|e]; [|reflexivity].
  destruct (waitKey (keys st)) as [k ks].
  destruct (Z.land k 255 =? code "q"); [reflexivity|].
  rewrite IH. cbn [ar_colorize].
  destruct (preset_of_key (Z.land k 255)); reflexivity.
Qed.

Lemma camera_loop_cap (frames : list image) (st : session) :
  cap st = Some {| isOpened := true; pending := frames |} ->
  exists rest, cap (snd (loop frames st))
               = Some {| isOpened := true; pending := rest |}.
Proof.
  revert st. induction frames as [|frame rest IH]; intros st Hc.
  - cbn. eauto.
  - cbn [camera_loop].
    destruct (process_frame _ _ _ _ _ _ _) as [[r|e] h']; [|cbn; eauto].
    destruct (hstack frame _) as [combined|e]; [|cbn; eauto].
    destruct (waitKey (keys st)) as [k ks].
    destruct (Z.land k 255 =? code "q"); [cbn; eauto|].
    apply IH. reflexivity.
Qed.

Lemma camera_loop_color (frames : list image) (st st' : session) :
  loop frames st = (Returned tt, st') ->
  selected_color (ar_colorize st')
  = color_after (length frames) (keys st) (selected_color (ar_colorize st)).
Proof.
  revert st. induction frames as [|frame rest IH]; intros st Hrun.
  - cbn in Hrun. now injection Hrun as <-.
  - cbn [camera_loop] in Hrun. cbn [length color_after].
    destruct (process_frame _ _ _ _ _ _ _) as [[r|e] h']; [|discriminate].
    destruct (hstack frame _) as [combined|e]; [|discriminate].
    destruct (waitKey (keys st)) as [k ks]. cbn [fst snd].
    destruct (Z.land k 255 =? code "q").
    + now injection Hrun as <-.
    + rewrite (IH _ Hrun). cbn [keys ar_colorize]. f_equal.
      destruct (preset_of_key (Z.land k 255)); reflexivity.
Qed.

Lemma camera_loop_raises (frames : list image) (st st' : session)
    (e : session_exn) :
  loop frames st = (Raised e, st') -> e <> RuntimeError.
Proof.
  revert st. induction frames as [|frame rest IH]; intros st E;
    [discriminate|].
  cbn [camera_loop] in E.
  destruct (process_frame _ _ _ _ _ _ _) as [[r|e'] h'];
    [|injection E as <- _; discriminate].
  destruct (hstack frame _) as [combined|e'];
    [|injection E as <- _; discriminate].
  destruct (waitKey (keys st)) as [k ks].
  destruct (Z.land k 255 =? code "q"); [discriminate|].
  eapply IH; exact E.
Qed.

(** X15. When the camera cannot be opened, [start_camera] raises
    [RuntimeError] before anything else happens: [running] is not set, no
    frame is read, no key is consumed and the selected colour is kept. *)
Theorem start_camera_no_device (devices : Z -> option (list image))
    (camera_id : Z) (st : session) :
  devices camera_id = None ->
  start_camera gray_of Canny findContours drawContours devices camera_id st
  = (Raised RuntimeError,
     {| ar_colorize := ar_colorize st;
        cap := Some {| isOpened := false; pending := [] |};
        arrays := arrays st; keys := keys st; window := window st |}).
Proof using Type.
  intros Hd. unfold start_camera, open_capture. rewrite Hd. reflexivity.
Qed.

(** X16. How [start_camera] ends. When it returns, the session is stopped:
    [running] is [False], the capture is released and the window is closed.
    When an exception of the frame pipeline leaves it, nothing is cleaned
    up: [running] is still [True] and the capture is still open. It raises
    [RuntimeError] only when the device cannot be opened. *)
Theorem start_camera_end (devices : Z -> option (list image))
    (camera_id : Z) (st : session) :
  let res := start_camera gray_of Canny findContours drawContours devices
               camera_id st in
  match fst res with
  | Returned _ =>
      running (ar_colorize (snd res)) = false
      /\ (exists rest,
            cap (snd res) = Some {| isOpened := false; pending := rest |})
      /\ window (snd res) = None
  | Raised (Propagated _) =>
      running (ar_colorize (snd res)) = true
      /\ exists rest,
           cap (snd res) = Some {| isOpened := true; pending := rest |}
  | Raised RuntimeError =>
      devices camera_id = None /\ ar_colorize (snd res) = ar_colorize st
  end.
Proof using Type.
  cbv zeta. unfold start_camera, open_capture.
  destruct (devices camera_id) as [frames|]; cbn [isOpened negb pending];
    [|cbn; auto].
  set (st2 := {| ar_colorize := set_running true (ar_colorize st);
                 cap := Some {| isOpened := true; pending := frames |};
                 arrays := arrays st; keys := keys st;
                 window := window st |}).
  pose proof (camera_loop_running frames st2) as Hr.
  destruct (camera_loop_cap frames st2 eq_refl) as [rest Hc].
  destruct (loop frames st2) as [[u|e] st3] eqn:E; cbn [fst snd] in *.
  - split; [reflexivity|]. split; [|reflexivity].
    exists rest. unfold stop_camera. cbn [cap]. now rewrite Hc.
  - pose proof (camera_loop_raises _ _ _ _ E) as He.
    destruct e as [|e]; [congruence|]. split; [exact Hr | eauto].
Qed.

(** X17. The colour selected when [start_camera] returns depends only on the
    keys pressed, one per frame delivered: a preset key 1 to 9 selects its
    colour, [q] ends the session, and every other key (no key among them)
    changes nothing. *)
Theorem start_camera_color (devices : Z -> option (list image))
    (camera_id : Z) (st st' : session) :
  start_camera gray_of Canny findContours drawContours devices camera_id st
  = (Returned tt, st') ->
  exists frames,
    devices camera_id = Some frames
    /\ selected_color (ar_colorize st')
       = color_after (length frames) (keys st)
           (selected_color (ar_colorize st)).
Proof using Type.
  unfold start_camera, open_capture.
  destruct (devices camera_id) as [frames|]; cbn [isOpened negb pending];
    [|discriminate].
  destruct (loop frames _) as [[[]|e] st3] eqn:E; [|discriminate].
  intros [= <-]. exists frames. split; [reflexivity|].
  unfold stop_camera. cbn [ar_colorize set_running selected_color].
  now rewrite (camera_loop_color _ _ _ E).
Qed.

(** X18. A first frame whose wall mask selects no pixel (a dark frame) ends
    the session: [start_camera] raises the [TypeError] of the pipeline after
    reading that one frame, with [running] still [True], the capture open
    and no key consumed. *)
Theorem start_camera_empty_mask (devices : Z -> option (list image))
    (camera_id : Z) (st : session) (frame : image) (rest : list image) :
  devices camera_id = Some (frame :: rest) ->
  select frame (detect_wall gray_of Canny frame) = [] ->
  let res := start_camera gray_of Canny findContours drawContours devices
               camera_id st in
  fst res = Raised (Propagated TypeError)
  /\ ar_colorize (snd res) = set_running true (ar_colorize st)
  /\ cap (snd res) = Some {| isOpened := true; pending := rest |}
  /\ keys (snd res) = keys st.
Proof using Canny_shape.
  intros Hd Hsel. cbv zeta. unfold start_camera, open_capture. rewrite Hd.
  cbn [isOpened negb pending camera_loop arrays ar_colorize keys].
  rewrite (process_frame_run gray_of Canny findContours drawContours
             Canny_shape _ _ _ frame (lookup_insert_eq _ _ _)).
  cbv zeta. rewrite Hsel. cbn. auto.
Qed.


(** X19. [main] with a colour that [hex_to_bgr] rejects raises [ValueError]
    before the camera is touched: no capture is created and no key is
    read. *)
Theorem main_invalid_color (devices : Z -> option (list image))
    (pressed : list Z) (camera : Z) (color : string) (e : exn) :
  hex_to_bgr color = Raise e ->
  main gray_of Canny findContours drawContours devices pressed camera color
  = (Raised (Propagated ValueError), initial_session init pressed).
Proof using Type.
  intros He. unfold main. rewrite set_color_run, He.
  now rewrite (hex_to_bgr_raises _ _ He).
Qed.


End SessionProperties.

Lemma pair_fst {A B} (p : A * B) (a : A) : fst p = a -> p = (a, snd p).
Proof. destruct p. cbn. congruence. Qed.

Lemma process_frame_preserves_witness :
  let h : heap := {[ 1%positive := white 3 3 ]} in
  let res := process_frame gray_fixed gradient_edges point_contours
               paint_points init 1%positive h in
  (forall l a, h !! l = Some a -> snd res !! l = Some a)
  /\ (forall r, fst res = Ok r ->
        r <> 1%positive /\ h !! r = None
        /\ exists out, snd res !! r = Some out).
Proof.
  exact (process_frame_preserves gray_fixed gradient_edges point_contours
           paint_points gradient_edges_shape init
           {[ 1%positive := white 3 3 ]} 1%positive (white 3 3) _ _
           (lookup_singleton_eq _ _) (surjective_pairing _)).
Defined.

Lemma start_camera_no_device_witness :
  start_camera gray_fixed gradient_edges point_contours paint_points
    one_camera 1 (initial_session init [])
  = (Raised RuntimeError,
     {| ar_colorize := init;
        cap := Some {| isOpened := false; pending := [] |};
        arrays := ∅; keys := []; window := None |}).
Proof.
  exact (start_camera_no_device gray_fixed gradient_edges point_contours
           paint_points one_camera 1 (initial_session init []) eq_refl).
Defined.

Lemma start_camera_color_witness :
  exists frames,
    one_camera 0 = Some frames
    /\ selected_color
         (ar_colorize
            (snd (start_camera gray_fixed gradient_edges point_contours
                    paint_points one_camera 0
                    (initial_session init [50; 113]))))
       = color_after (length frames) [50; 113] (255, 255, 255).
Proof.
  apply (start_camera_color gray_fixed gradient_edges point_contours
           paint_points one_camera 0 (initial_session init [50; 113])).
  apply pair_fst. vm_compute. reflexivity.
Defined.

Lemma start_camera_empty_mask_witness :
  let res := start_camera gray_fixed gradient_edges point_contours
               paint_points dark_camera 0 (initial_session init [49]) in
  fst res = Raised (Propagated TypeError)
  /\ ar_colorize (snd res) = set_running true init
  /\ cap (snd res) = Some {| isOpened := true; pending := [white 3 3] |}
  /\ keys (snd res) = [49].
Proof.
  apply (start_camera_empty_mask gray_fixed gradient_edges point_contours
           paint_points gradient_edges_shape dark_camera 0
           (initial_session init [49]) (black 3 3) [white 3 3]).
  - reflexivity.
  - vm_compute. reflexivity.
Defined.

Lemma main_invalid_color_witness :
  main gray_fixed gradient_edges point_contours paint_points one_camera []
    0 "nope"
  = (Raised (Propagated ValueError), initial_session init []).
Proof.
  apply (main_invalid_color gray_fixed gradient_edges point_contours
           paint_points one_camera [] 0 "nope" ValueError).
  reflexivity.
Defined.


(** ** The palette of the web server and the keyboard presets *)

